(** * jason::Matrix (src/lib/Matrix.cc) over a store of GSL blocks

    The C++ class [Matrix] owns one [gsl_matrix] and forwards its work to
    GSL and CBLAS.  The model has three layers:

    - [Err]: a state-and-error monad over a store of GSL objects; a
      [Matrix] or [Vector] pointer is the address of the block it owns, and
      a [double] pointer such as [m->data] is the address of the block it
      points into (the code only ever passes pointers to offset 0);
    - the GSL and CBLAS entry points that [Matrix.cc] calls, each with the
      argument checks of the GSL sources;
    - the methods of [Matrix.cc], statement by statement.

    The text-file constructor works on a [FILE] and comes after these.

    Doubles are kept abstract: the scalar type and its operations form the
    class [Arith], so every statement below is about the way [Matrix.cc]
    moves numbers between blocks, not about rounding.  [Print], which only
    writes to the standard output, is not modelled. *)

From Stdlib Require Import ZArith Ascii String.
From stdpp Require Import gmap list.

Local Open Scope nat_scope.

(** ** Errors and the store monad *)

(** What ends a run: GSL's error handler (range and size checks, a
    singular factor, a failed scan), CBLAS's [cblas_xerbla] with the
    position of the offending argument, and a C++ [throw].  [Fault] is of
    another kind: it marks a memory access outside the block a pointer
    points into, which is undefined behaviour in C.  The program does not
    stop there; what it does next is outside the model, and a run that
    ends in [Fault] says nothing more than that such an access is
    reached. *)
Inductive error :=
| GslError (reason : string)
| Xerbla (pos : nat)
| Thrown (what : string)
| Fault.

Inductive res (S A : Type) :=
| Ok (a : A) (s : S)
| Err (e : error).
Arguments Ok {S A} a s.
Arguments Err {S A} e.

Module Err.

Definition M (S A : Type) : Type := S → res S A.

Definition ret {S A} (a : A) : M S A := λ s, Ok a s.

Definition bind {S A B} (c : M S A) (k : A → M S B) : M S B :=
  λ s, match c s with
       | Ok a s' => k a s'
       | Err e => Err e
       end.

Definition raise {S A} (e : error) : M S A := λ _, Err e.

(** [for (x in l) body(x);] *)
Fixpoint for_ {S A} (l : list A) (body : A → M S unit) : M S unit :=
  match l with
  | [] => ret tt
  | x :: l' => bind (body x) (λ _, for_ l' body)
  end.

End Err.

#[global] Instance err_ret {S} : MRet (Err.M S) := λ A, Err.ret.
#[global] Instance err_bind {S} : MBind (Err.M S) := λ A B k c, Err.bind c k.

(** ** GSL objects and the store *)

(** [gsl_matrix]: [size1] rows, [size2] columns, row-major [data].  Every
    block here comes from [gsl_matrix_alloc], so [tda = size2]. *)
Record gsl_matrix (R : Type) := {
  size1 : nat;
  size2 : nat;
  mdata : list R
}.
Arguments Build_gsl_matrix {R} size1 size2 mdata.
Arguments size1 {R} g.
Arguments size2 {R} g.
Arguments mdata {R} g.

(** [gsl_vector] with stride 1. *)
Record gsl_vector (R : Type) := {
  size : nat;
  vdata : list R
}.
Arguments Build_gsl_vector {R} size vdata.
Arguments size {R} g.
Arguments vdata {R} g.

Inductive object (R : Type) :=
| OMatrix (m : gsl_matrix R)
| OVector (v : gsl_vector R)
| OPermutation (p : list nat).
Arguments OMatrix {R} m.
Arguments OVector {R} v.
Arguments OPermutation {R} p.

Abbreviation loc := positive.
Abbreviation store R := (gmap positive (object R)).

(** The scalar type standing for [double], with the constants and the two
    operations that [cblas_dgemm] uses. *)
Class Arith (R : Type) := {
  zero : R;
  one : R;
  add : R → R → R;
  mul : R → R → R
}.

(** What [malloc] hands back is not initialised: [uninit l k] is the
    number found at offset [k] of a block obtained at address [l], and
    [uninit_index l k] the index found there in a permutation. *)
Class Uninit (R : Type) := {
  uninit : loc → nat → R;
  uninit_index : loc → nat → nat
}.

(** [gsl_linalg_LU_decomp] and [gsl_linalg_LU_invert] work in place and
    are numerical kernels of GSL, not of this repository.  They are
    described by what they leave in each cell: [LU_decomp_cell a k] is the
    number stored at offset [k] of the matrix that held [a],
    [LU_decomp_index a k] the entry [k] of the permutation, and
    [LU_invert_cell lu p k] the number stored at offset [k] of [inverse].
    [LU_is_zero u] is the comparison [u == 0] that [gsl_linalg_LU_invert]
    makes on the diagonal of the factor before it solves. *)
Class LU (R : Type) := {
  LU_decomp_cell : gsl_matrix R → nat → R;
  LU_decomp_index : gsl_matrix R → nat → nat;
  LU_invert_cell : gsl_matrix R → list nat → nat → R;
  LU_is_zero : R → bool
}.

(** [fscanf (stream, "%lg", &tmp)] on what is left of the stream: the
    number read and the rest of the stream, or [None] when the conversion
    fails. *)
Class Scanner (R : Type) := {
  scan_double : list ascii → option (R * list ascii)
}.

(** [class Matrix { gsl_matrix *m; ... }] *)
Record Matrix := { m : loc }.

(** Modelled from the spec: [lib/Vector.h] is not part of the sources.
    [Matrix.cc] reads the field [vec->v] (a [gsl_vector] pointer), calls
    [vec->Size()] and builds vectors from a [gsl_vector] pointer and from
    a [double] pointer with a length.  Following the spec's data model a
    Vector owns a buffer of fixed length: [Size] is the length of that
    buffer, the first constructor takes over the block it is given (as
    the [Matrix] constructor from a [gsl_matrix] pointer does) and the
    second copies [n] numbers into a block of its own. *)
Record Vector := { v : loc }.

Section Model.

Context {R : Type} {arith : Arith R} {heap : Uninit R} {kernel : LU R}.

Abbreviation M := (Err.M (store R)).

(** The numbers lying in a block: what a [double] pointer to its start
    reads. *)
Definition buffer (o : object R) : list R :=
  match o with
  | OMatrix m => mdata m
  | OVector v => vdata v
  | OPermutation _ => []
  end.

Definition with_buffer (o : object R) (d : list R) : object R :=
  match o with
  | OMatrix m => OMatrix {| size1 := size1 m; size2 := size2 m; mdata := d |}
  | OVector v => OVector {| size := size v; vdata := d |}
  | OPermutation p => OPermutation p
  end.

Definition junk (l : loc) (n : nat) : list R := uninit l <$> seq 0 n.

Definition alloc (mk : loc → object R) : M loc :=
  λ σ, let l := fresh (dom σ) in Ok l (<[l := mk l]> σ).

Definition free (l : loc) : M unit :=
  λ σ, Ok tt (delete l σ).

Definition load_matrix (l : loc) : M (gsl_matrix R) :=
  λ σ, match σ !! l with
       | Some (OMatrix m) => Ok m σ
       | _ => Err Fault
       end.

Definition load_vector (l : loc) : M (gsl_vector R) :=
  λ σ, match σ !! l with
       | Some (OVector v) => Ok v σ
       | _ => Err Fault
       end.

Definition load_permutation (l : loc) : M (list nat) :=
  λ σ, match σ !! l with
       | Some (OPermutation p) => Ok p σ
       | _ => Err Fault
       end.

Definition load_buffer (l : loc) : M (list R) :=
  λ σ, match σ !! l with
       | Some o => Ok (buffer o) σ
       | None => Err Fault
       end.

Definition store_buffer (l : loc) (d : list R) : M unit :=
  λ σ, match σ !! l with
       | Some o => Ok tt (<[l := with_buffer o d]> σ)
       | None => Err Fault
       end.

Definition store_permutation (l : loc) (p : list nat) : M unit :=
  λ σ, match σ !! l with
       | Some (OPermutation _) => Ok tt (<[l := OPermutation p]> σ)
       | _ => Err Fault
       end.

(** [*(p + k)] for a [double *p] to the start of the block at [l]. *)
Definition peek (l : loc) (k : nat) : M R :=
  λ σ, match σ !! l with
       | Some o => match buffer o !! k with
                   | Some x => Ok x σ
                   | None => Err Fault
                   end
       | None => Err Fault
       end.

(** ** The GSL entry points used by [Matrix.cc] *)

Definition gsl_matrix_alloc (n1 n2 : nat) : M loc :=
  alloc (λ l, OMatrix {| size1 := n1; size2 := n2; mdata := junk l (n1 * n2) |}).

Definition gsl_vector_alloc (n : nat) : M loc :=
  alloc (λ l, OVector {| size := n; vdata := junk l n |}).

Definition gsl_vector_calloc (n : nat) : M loc :=
  alloc (λ _, OVector {| size := n; vdata := replicate n zero |}).

Definition gsl_permutation_alloc (n : nat) : M loc :=
  alloc (λ l, OPermutation (uninit_index l <$> seq 0 n)).

Definition gsl_matrix_free (l : loc) : M unit := free l.
Definition gsl_permutation_free (l : loc) : M unit := free l.

(** [gsl_matrix_get] and [gsl_matrix_set] with GSL's range check. *)
Definition gsl_matrix_get (l : loc) (i j : nat) : M R :=
  b ← load_matrix l;
  if decide (size1 b ≤ i) then Err.raise (GslError "first index out of range")
  else if decide (size2 b ≤ j) then Err.raise (GslError "second index out of range")
  else peek l (i * size2 b + j).

Definition gsl_matrix_set (l : loc) (i j : nat) (x : R) : M unit :=
  b ← load_matrix l;
  if decide (size1 b ≤ i) then Err.raise (GslError "first index out of range")
  else if decide (size2 b ≤ j) then Err.raise (GslError "second index out of range")
  else if decide (i * size2 b + j < length (mdata b))
       then store_buffer l (<[i * size2 b + j := x]> (mdata b))
       else Err.raise Fault.

(** [gsl_matrix_get_row (v, m, i)]: copy row [i] of [m] into [v]. *)
Definition gsl_matrix_get_row (lv lm : loc) (i : nat) : M unit :=
  b ← load_matrix lm;
  w ← load_vector lv;
  if decide (size1 b ≤ i) then Err.raise (GslError "row index is out of range")
  else if decide (size w ≠ size2 b)
       then Err.raise (GslError "matrix row size and vector length are not equal")
  else Err.for_ (seq 0 (size2 b)) (λ j,
         x ← peek lm (i * size2 b + j);
         d ← load_buffer lv;
         if decide (j < length d) then store_buffer lv (<[j := x]> d)
         else Err.raise Fault).

(** [gsl_matrix_set_row (m, i, v)]: copy [v] over row [i] of [m]. *)
Definition gsl_matrix_set_row (lm : loc) (i : nat) (lv : loc) : M unit :=
  b ← load_matrix lm;
  w ← load_vector lv;
  if decide (size1 b ≤ i) then Err.raise (GslError "row index is out of range")
  else if decide (size w ≠ size2 b)
       then Err.raise (GslError "matrix row size and vector length are not equal")
  else Err.for_ (seq 0 (size2 b)) (λ j,
         x ← peek lv j;
         d ← load_buffer lm;
         if decide (i * size2 b + j < length d)
         then store_buffer lm (<[i * size2 b + j := x]> d)
         else Err.raise Fault).

(** *** [cblas_dgemm (CblasRowMajor, CblasNoTrans, CblasTrans, ...)]

    Both calls in [Matrix.cc] pass these three flags with [alpha = 1.0]
    and [beta = 0.0], so only that path of GSL's [cblas_dgemm] is written
    out: the argument check of [CBLAS_ERROR_GEMM] (the last failing test
    sets the reported position, and [cblas_xerbla] ends the run), then [C]
    cleared because [beta] is zero, then
    [C[ldc*i+j] += alpha * sum_k A[lda*i+k] * B[ldb*j+k]].  A call whose
    operands do not fit their buffers reads or writes outside a block:
    CBLAS has no test for that, the program goes on with whatever the
    access gives, and the model ends in [Fault], which stands for
    undefined behaviour and not for a stop. *)

Definition at_ (d : list R) (k : nat) : R := default zero (d !! k).

Definition gemm_error_pos (K N lda ldb ldc : nat) : nat :=
  let pos := 0 in
  let pos := if decide (lda < max 1 K) then 9 else pos in
  let pos := if decide (ldb < max 1 K) then 11 else pos in
  let pos := if decide (ldc < max 1 N) then 14 else pos in
  pos.

Definition gemm_temp (K : nat) (F : list R) (ldf i : nat)
    (G : list R) (ldg j : nat) : R :=
  foldl (λ temp k, add temp (mul (at_ F (ldf * i + k)) (at_ G (ldg * j + k))))
        zero (seq 0 K).

Definition gemm_clear (n1 n2 : nat) (C : list R) (ldc : nat) : list R :=
  foldl (λ C i, foldl (λ C j, <[ldc * i + j := zero]> C) C (seq 0 n2))
        C (seq 0 n1).

Definition gemm_NT (n1 n2 K : nat) (alpha : R) (F : list R) (ldf : nat)
    (G : list R) (ldg : nat) (C : list R) (ldc : nat) : list R :=
  foldl (λ C i,
    foldl (λ C j,
      <[ldc * i + j := add (at_ C (ldc * i + j))
                           (mul alpha (gemm_temp K F ldf i G ldg j))]> C)
      C (seq 0 n2))
    C (seq 0 n1).

(** The cells an [n1 × n2] operand with leading dimension [ld] occupies
    lie inside a buffer of [len] numbers. *)
Definition fits (n1 n2 ld len : nat) : Prop :=
  n1 = 0 ∨ n2 = 0 ∨ ld * (n1 - 1) + n2 ≤ len.

#[local] Instance fits_dec n1 n2 ld len : Decision (fits n1 n2 ld len).
Proof. unfold fits. apply _. Defined.

Definition cblas_dgemm (M N K : nat) (alpha : R) (A : loc) (lda : nat)
    (B : loc) (ldb : nat) (C : loc) (ldc : nat) : Err.M (store R) unit :=
  let pos := gemm_error_pos K N lda ldb ldc in
  if decide (pos ≠ 0) then Err.raise (Xerbla pos)
  else
    a ← load_buffer A;
    b ← load_buffer B;
    c ← load_buffer C;
    if decide (fits M K lda (length a) ∧ fits N K ldb (length b)
               ∧ fits M N ldc (length c))
    then store_buffer C
           (gemm_NT M N K alpha a lda b ldb (gemm_clear M N c ldc) ldc)
    else Err.raise Fault.

(** ** The methods of [Matrix.cc] *)

(** Modelled from the spec: [Vector::Size], the length of the buffer. *)
Definition Vector_Size (vec : Vector) : M nat :=
  b ← load_vector (v vec); mret (size b).

(** Modelled from the spec: the constructor from a [gsl_vector] pointer,
    which takes the block over. *)
Definition Vector_gsl (vec : loc) : M Vector := mret {| v := vec |}.

(** Modelled from the spec: the constructor from a [double] pointer and a
    length, which copies [n] numbers into a block of its own. *)
Definition Vector_data (data : loc) (n : nat) : M Vector :=
  l ← gsl_vector_alloc n;
  Err.for_ (seq 0 n) (λ i,
    x ← peek data i;
    d ← load_buffer l;
    if decide (i < length d) then store_buffer l (<[i := x]> d)
    else Err.raise Fault);;
  mret {| v := l |}.

Definition Height (this : Matrix) : M nat :=
  b ← load_matrix (m this); mret (size1 b).

Definition Width (this : Matrix) : M nat :=
  b ← load_matrix (m this); mret (size2 b).

Definition Matrix_hw (height width : nat) : M Matrix :=
  l ← gsl_matrix_alloc height width; mret {| m := l |}.

Definition Matrix_gsl (mat : loc) : M Matrix := mret {| m := mat |}.

(** [Matrix::Matrix(double *data, size_t height, size_t width)] *)
Definition Matrix_data (data : loc) (height width : nat) : M Matrix :=
  l ← gsl_matrix_alloc height width;
  Err.for_ (seq 0 height) (λ row,
    Err.for_ (seq 0 width) (λ col,
      x ← peek data (row * width + col);
      gsl_matrix_set l row col x));;
  mret {| m := l |}.

Definition Get (this : Matrix) (row col : nat) : M R :=
  gsl_matrix_get (m this) row col.

Definition Set_ (this : Matrix) (row col : nat) (val : R) : M unit :=
  gsl_matrix_set (m this) row col val.

(** [return new Matrix(this->m->data, this->Width(), this->Height());] *)
Definition Clone (this : Matrix) : M Matrix :=
  w ← Width this;
  h ← Height this;
  Matrix_data (m this) w h.

Definition Row (this : Matrix) (row : nat) : M Vector :=
  w ← Width this;
  l ← gsl_vector_alloc w;
  gsl_matrix_get_row l (m this) row;;
  Vector_gsl l.

Definition SetRow (this : Matrix) (row : nat) (vec : Vector) : M unit :=
  gsl_matrix_set_row (m this) row (v vec).

(** The local [m] shadows the field: the loop stores through
    [this->Set], and the fresh block is returned as allocated. *)
Definition CloneGSLMatrix (this : Matrix) : M loc :=
  height ← Height this;
  width ← Width this;
  l ← gsl_matrix_alloc height width;
  Err.for_ (seq 0 height) (λ row,
    Err.for_ (seq 0 width) (λ col,
      x ← peek (m this) (row * width + col);
      Set_ this row col x));;
  mret l.

Definition Multiply (this other : Matrix) : M Matrix :=
  h ← Height this;
  oh ← Height other;
  result ← gsl_matrix_alloc h oh;
  w ← Width this;
  ow ← Width other;
  r ← load_matrix result;
  cblas_dgemm h oh w one (m this) w (m other) ow result (size2 r);;
  Matrix_data result h oh.

Definition Multiply_Vector (this : Matrix) (vec : Vector) : M Vector :=
  n ← Vector_Size vec;
  result ← gsl_vector_calloc n;
  h ← Height this;
  w ← Width this;
  b ← load_matrix (m this);
  cblas_dgemm h n w one (m this) (size2 b) (v vec) n result 1;;
  r ← load_vector result;
  Vector_data result (size r).

(** *** [Invert] and the LU routines

    [Invert] discards the return codes of the two routines and the
    signum.  [gsl_linalg_LU_decomp] factors a singular matrix without
    complaint; [gsl_linalg_LU_invert] calls GSL's error handler when the
    factor has a zero on its diagonal, and the handler ends the run. *)
Definition gsl_linalg_LU_decomp (A p : loc) : M unit :=
  a ← load_matrix A;
  perm ← load_permutation p;
  if decide (size1 a ≠ size2 a)
  then Err.raise (GslError "LU decomposition requires square matrix")
  else if decide (length perm ≠ size1 a)
  then Err.raise (GslError "permutation length must match matrix size")
  else
    store_buffer A (imap (λ k _, LU_decomp_cell a k) (mdata a));;
    store_permutation p (imap (λ k _, LU_decomp_index a k) perm).

(** [singular (LU)] of GSL's [lu.c]: some [LU[i][i]] is [0.0].  The
    blocks that reach it hold all their [size1 * size2] cells. *)
Definition singular (lu : gsl_matrix R) : bool :=
  existsb (λ i, from_option LU_is_zero false (mdata lu !! (i * size2 lu + i)))
          (seq 0 (size1 lu)).

(** The test for a singular factor comes first, then the tests on the
    dimensions; on the path from [Invert] every block is [n × n] and only
    the first can fire. *)
Definition gsl_linalg_LU_invert (LU p inverse : loc) : M unit :=
  lu ← load_matrix LU;
  perm ← load_permutation p;
  inv ← load_matrix inverse;
  if singular lu then Err.raise (GslError "matrix is singular")
  else if decide (size1 lu ≠ size2 lu)
  then Err.raise (GslError "LU matrix must be square")
  else if decide (size1 lu ≠ length perm)
  then Err.raise (GslError "permutation length must match matrix size")
  else if decide (size1 lu ≠ size1 inv)
  then Err.raise (GslError "matrix size must match solution size")
  else store_buffer inverse (imap (λ k _, LU_invert_cell lu perm k) (mdata inv)).

Definition Invert (this : Matrix) : M Matrix :=
  n ← Width this;
  copy ← CloneGSLMatrix this;
  inverse ← gsl_matrix_alloc n n;
  perm ← gsl_permutation_alloc n;
  gsl_linalg_LU_decomp copy perm;;
  gsl_linalg_LU_invert copy perm inverse;;
  gsl_permutation_free perm;;
  gsl_matrix_free copy;;
  Matrix_data inverse n n.

(** ** The quantities the statements speak of *)

(** The dot product of two rows, accumulated from the left as the
    innermost loop of [cblas_dgemm] does. *)
Definition dot (x y : list R) : R :=
  foldl (λ acc ab, add acc (mul ab.1 ab.2)) zero (zip x y).

(** Row [i] of a block. *)
Definition matrix_row (b : gsl_matrix R) (i : nat) : list R :=
  take (size2 b) (drop (i * size2 b) (mdata b)).

(** The data model's invariant for a matrix: both dimensions positive
    and [size1 * size2] numbers in the buffer. *)
Definition valid (b : gsl_matrix R) : Prop :=
  0 < size1 b ∧ 0 < size2 b ∧ length (mdata b) = size1 b * size2 b.

(** The factor that [gsl_linalg_LU_decomp] leaves in the block that
    [Invert] decomposes, for a receiver of width [n] when the addresses in
    [D] are in use (see [Invert_run]): the block that [CloneGSLMatrix]
    returns holds what [gsl_matrix_alloc] handed out. *)
Definition Invert_factor (D : gset loc) (n : nat) : gsl_matrix R :=
  let copy := fresh D in
  let a := {| size1 := n; size2 := n; mdata := junk copy (n * n) |} in
  {| size1 := n; size2 := n;
     mdata := imap (λ k _, LU_decomp_cell a k) (mdata a) |}.

(** The numbers of the matrix that [Invert] returns for a receiver of
    width [n] when the addresses in [D] are in use (see [Invert_run]): the
    LU routines applied to blocks as [gsl_matrix_alloc] hands them out. *)
Definition Invert_cells (D : gset loc) (n : nat) : list R :=
  let copy := fresh D in
  let inverse := fresh ({[copy]} ∪ D) in
  let perm := fresh ({[inverse]} ∪ ({[copy]} ∪ D)) in
  let a := {| size1 := n; size2 := n; mdata := junk copy (n * n) |} in
  let lu := {| size1 := n; size2 := n;
               mdata := imap (λ k _, LU_decomp_cell a k) (mdata a) |} in
  let p := imap (λ k _, LU_decomp_index a k) (uninit_index perm <$> seq 0 n) in
  imap (λ k _, LU_invert_cell lu p k) (junk inverse (n * n)).

End Model.

(** * The text-file constructor *)

(** ** Characters and streams *)

Definition EOF : Z := (-1)%Z.

(** [fgetc] returns the byte as an [unsigned char] converted to [int]. *)
Definition int_of_byte (c : ascii) : Z := Z.of_N (N_of_ascii c).

(** [char c = x;] for an [int x], with [char] a signed 8-bit type as on
    x86: the value wraps into [-128 .. 127]. *)
Definition to_char (x : Z) : Z := ((x + 128) mod 256 - 128)%Z.

(** [isspace] in the "C" locale: space and the five controls 9 to 13,
    and nothing else, [EOF] and the negative [char] values included. *)
Definition isspace (c : Z) : bool :=
  ((c =? 32) || ((9 <=? c) && (c <=? 13)))%Z.

(** A [FILE] open for reading: its bytes and the read position. *)
Record FILE := {
  contents : list ascii;
  pos : nat
}.

Definition fgetc (f : FILE) : Z * FILE :=
  match contents f !! pos f with
  | Some c => (int_of_byte c, {| contents := contents f; pos := S (pos f) |})
  | None => (EOF, f)
  end.

(** [fseek (f, 0, SEEK_SET)] *)
Definition fseek_start (f : FILE) : FILE :=
  {| contents := contents f; pos := 0 |}.

(** ** The two counting passes

    Both are [while] loops around [fgetc]; [fuel] bounds the number of
    rounds, and [None] says that the loop was still running when the fuel
    ran out.  The counters are [int] in the source; they are natural
    numbers here, which is exact for files of fewer than [2^31] lines. *)

Fixpoint NumberOfRows_loop (fuel : nat) (f : FILE) (lastChar : Z) (count : nat)
    : option (nat * FILE) :=
  match fuel with
  | 0 => None
  | S fuel' =>
      let (c, f') := fgetc f in
      let currentChar := to_char c in
      if (currentChar =? EOF)%Z then Some (count, f')
      else
        let count' :=
          if ((lastChar =? 10) && negb (currentChar =? 10))%Z
          then S count else count in
        NumberOfRows_loop fuel' f' currentChar count'
  end.

Definition NumberOfRows (fuel : nat) (f : FILE) : option (nat * FILE) :=
  match NumberOfRows_loop fuel f 10%Z 0 with
  | Some (count, f') => Some (count, fseek_start f')
  | None => None
  end.

Fixpoint NumberOfColumns_loop (fuel : nat) (f : FILE) (lastChar : Z) (count : nat)
    : option (nat * FILE) :=
  match fuel with
  | 0 => None
  | S fuel' =>
      let (c, f') := fgetc f in
      let currentChar := to_char c in
      if (currentChar =? 10)%Z then Some (count, f')
      else
        let count' :=
          if isspace lastChar && negb (isspace currentChar)
          then S count else count in
        NumberOfColumns_loop fuel' f' currentChar count'
  end.

Definition NumberOfColumns (fuel : nat) (f : FILE) : option (nat * FILE) :=
  match NumberOfColumns_loop fuel f 32%Z 0 with
  | Some (count, f') => Some (count, fseek_start f')
  | None => None
  end.

(** ** [gsl_matrix_fscanf] and the constructor *)

Section Scan.

Context {R : Type} {heap : Uninit R} {scanner : Scanner R}.

(** [gsl_block_raw_fscanf]: [n] numbers, stored in the order read. *)
Fixpoint raw_fscanf (n : nat) (i : nat) (rest : list ascii) (d : list R)
    : option (list R * list ascii) :=
  match n with
  | 0 => Some (d, rest)
  | S n' =>
      match scan_double rest with
      | Some (tmp, rest') => raw_fscanf n' (S i) rest' (<[i := tmp]> d)
      | None => None
      end
  end.

Definition gsl_matrix_fscanf (f : FILE) (l : loc) : Err.M (store R) FILE :=
  b ← load_matrix l;
  match raw_fscanf (size1 b * size2 b) 0 (drop (pos f) (contents f)) (mdata b) with
  | Some (d, rest) =>
      store_buffer l d;;
      mret {| contents := contents f;
              pos := length (contents f) - length rest |}
  | None => Err.raise (GslError "fscanf failed")
  end.

(** The first [n] numbers of a stream in the order they are read, and what
    is left after them. *)
Fixpoint scan_all (n : nat) (rest : list ascii) : option (list R * list ascii) :=
  match n with
  | 0 => Some ([], rest)
  | S n' =>
      match scan_double rest with
      | Some (x, rest') =>
          match scan_all n' rest' with
          | Some (xs, rest'') => Some (x :: xs, rest'')
          | None => None
          end
      | None => None
      end
  end.

(** [Matrix::Matrix(const char* filename)]; [file] is what [fopen] finds
    under that name. *)
Definition Matrix_file (file : option (list ascii)) (fuel : nat) (σ : store R)
    : option (res (store R) Matrix) :=
  match file with
  | Some bytes =>
      let f := {| contents := bytes; pos := 0 |} in
      match NumberOfRows fuel f with
      | None => None
      | Some (rows, f) =>
          match NumberOfColumns fuel f with
          | None => None
          | Some (cols, f) =>
              Some ((l ← gsl_matrix_alloc rows cols;
                     gsl_matrix_fscanf f l;;
                     mret {| m := l |}) σ)
          end
      end
  | None => Some (Err (Thrown "File read error."))
  end.

End Scan.

(** ** What the passes are meant to count *)

Definition is_newline (c : ascii) : bool := Ascii.eqb c "010".

Definition is_space (c : ascii) : bool :=
  existsb (Ascii.eqb c) [" "; "009"; "010"; "011"; "012"; "013"]%char.

(** The pieces of a text between separators, empty pieces included: a text
    with [k] separators has [k + 1] pieces. *)
Fixpoint fields (sep : ascii → bool) (l : list ascii) : list (list ascii) :=
  match l with
  | [] => [[]]
  | c :: l' =>
      if sep c then [] :: fields sep l'
      else match fields sep l' with
           | h :: t => (c :: h) :: t
           | [] => [[c]]
           end
  end.

Definition nonempty (x : list ascii) : bool :=
  match x with [] => false | _ :: _ => true end.

(** The lines with at least one character. *)
Definition non_blank_lines (text : list ascii) : list (list ascii) :=
  List.filter nonempty (fields is_newline text).

(** The text up to its first newline (all of it when there is none). *)
Definition first_line (text : list ascii) : list ascii :=
  hd [] (fields is_newline text).

(** The whitespace-delimited tokens of a line. *)
Definition tokens (line : list ascii) : list (list ascii) :=
  List.filter nonempty (fields is_space line).

(** Changes from a separator to a character that is none, the way both
    loops count them. *)
Fixpoint transitions (sep : ascii → bool) (last_sep : bool) (l : list ascii) : nat :=
  match l with
  | [] => 0
  | c :: l' =>
      (if last_sep && negb (sep c) then 1 else 0) + transitions sep (sep c) l'
  end.

(** * The other methods of [Matrix.cc] *)

(** [-x], [x / y] and the two statistics of GSL that [Sphere] calls:
    [gsl_stats_mean d] and [gsl_stats_sd d] stand for the calls with stride
    1 on the [n] numbers [d]. *)
Class Stats (R : Type) := {
  neg : R → R;
  div : R → R → R;
  gsl_stats_mean : list R → R;
  gsl_stats_sd : list R → R
}.

(** [gsl_vector_view]: a vector laid over the cells [stride * j] of a
    block. *)
Record gsl_vector_view := {
  view_block : loc;
  view_size : nat;
  view_stride : nat
}.

Section Rest.

Context {R : Type} {arith : Arith R} {heap : Uninit R} {stats : Stats R}.

Abbreviation M := (Err.M (store R)).

(** [p[k] = x] for a [double *p] to the start of the block at [l]. *)
Definition poke (l : loc) (k : nat) (x : R) : M unit :=
  d ← load_buffer l;
  if decide (k < length d) then store_buffer l (<[k := x]> d)
  else Err.raise Fault.

(** A loop that carries a local variable. *)
Fixpoint fold_ {A B} (l : list A) (acc : B) (body : B → A → M B) : M B :=
  match l with
  | [] => mret acc
  | x :: l' => acc' ← body acc x; fold_ l' acc' body
  end.

Definition gsl_vector_free (l : loc) : M unit := free l.

(** [gsl_matrix_get_col (v, m, j)]: copy column [j] of [m] into [v]. *)
Definition gsl_matrix_get_col (lv lm : loc) (j : nat) : M unit :=
  b ← load_matrix lm;
  w ← load_vector lv;
  if decide (size2 b ≤ j) then Err.raise (GslError "column index is out of range")
  else if decide (size w ≠ size1 b)
       then Err.raise (GslError "matrix column size and vector length are not equal")
  else Err.for_ (seq 0 (size1 b)) (λ i,
         x ← peek lm (i * size2 b + j);
         poke lv i x).

(** [gsl_matrix_set_col (m, j, v)]: copy [v] over column [j] of [m]. *)
Definition gsl_matrix_set_col (lm : loc) (j : nat) (lv : loc) : M unit :=
  b ← load_matrix lm;
  w ← load_vector lv;
  if decide (size2 b ≤ j) then Err.raise (GslError "column index is out of range")
  else if decide (size w ≠ size1 b)
       then Err.raise (GslError "matrix column size and vector length are not equal")
  else Err.for_ (seq 0 (size1 b)) (λ i,
         x ← peek lv i;
         poke lm (i * size2 b + j) x).

(** [gsl_matrix_add (a, b)]: [a[i][j] += b[i][j]]. *)
Definition gsl_matrix_add (a b : loc) : M unit :=
  ma ← load_matrix a;
  mb ← load_matrix b;
  if decide (size1 mb ≠ size1 ma ∨ size2 mb ≠ size2 ma)
  then Err.raise (GslError "matrices must have same dimensions")
  else Err.for_ (seq 0 (size1 ma)) (λ i,
         Err.for_ (seq 0 (size2 ma)) (λ j,
           x ← peek a (i * size2 ma + j);
           y ← peek b (i * size2 mb + j);
           poke a (i * size2 ma + j) (add x y))).

(** [gsl_matrix_set_all (m, x)] *)
Definition gsl_matrix_set_all (lm : loc) (x : R) : M unit :=
  b ← load_matrix lm;
  Err.for_ (seq 0 (size1 b)) (λ i,
    Err.for_ (seq 0 (size2 b)) (λ j,
      poke lm (i * size2 b + j) x)).

(** [gsl_matrix_diagonal (m)]: the view of the main diagonal, which
    steps by [tda + 1]. *)
Definition gsl_matrix_diagonal (lm : loc) : M gsl_vector_view :=
  b ← load_matrix lm;
  mret {| view_block := lm;
          view_size := min (size1 b) (size2 b);
          view_stride := size2 b + 1 |}.

(** [gsl_vector_memcpy (dest, src)] with a view as destination. *)
Definition gsl_vector_memcpy (dest : gsl_vector_view) (src : loc) : M unit :=
  s ← load_vector src;
  if decide (size s ≠ view_size dest)
  then Err.raise (GslError "vector lengths are not equal")
  else Err.for_ (seq 0 (size s)) (λ j,
         x ← peek src j;
         poke (view_block dest) (view_stride dest * j) x).

(** [gsl_vector_add_constant (v, x)]: [v[i] += x]. *)
Definition gsl_vector_add_constant (lv : loc) (x : R) : M unit :=
  w ← load_vector lv;
  Err.for_ (seq 0 (size w)) (λ i,
    y ← peek lv i;
    poke lv i (add y x)).

(** [gsl_vector_scale (v, x)]: [v[i] *= x]. *)
Definition gsl_vector_scale (lv : loc) (x : R) : M unit :=
  w ← load_vector lv;
  Err.for_ (seq 0 (size w)) (λ i,
    y ← peek lv i;
    poke lv i (mul y x)).

(** A statistic of the first [n] numbers behind a [double] pointer. *)
Definition stats_call (f : list R → R) (l : loc) (n : nat) : M R :=
  d ← load_buffer l;
  if decide (n ≤ length d) then mret (f (take n d)) else Err.raise Fault.

(** [Matrix::Matrix(Vector *vec)] *)
Definition Matrix_vec (vec : Vector) : M Matrix :=
  s ← load_vector (v vec);
  mat ← gsl_matrix_alloc (size s) (size s);
  diag ← gsl_matrix_diagonal mat;
  gsl_matrix_set_all mat zero;;
  gsl_vector_memcpy diag (v vec);;
  mret {| m := mat |}.

(** [Matrix::~Matrix()] *)
Definition Matrix_destroy (this : Matrix) : M unit :=
  gsl_matrix_free (m this).

(** Modelled from the spec: the destructor of [Vector], which releases the
    buffer that the vector owns. *)
Definition Vector_destroy (vec : Vector) : M unit :=
  gsl_vector_free (v vec).

Definition Add (this other : Matrix) : M unit :=
  gsl_matrix_add (m this) (m other).

Definition Column (this : Matrix) (col : nat) : M Vector :=
  h ← Height this;
  l ← gsl_vector_alloc h;
  gsl_matrix_get_col l (m this) col;;
  Vector_gsl l.

Definition SetColumn (this : Matrix) (col : nat) (vec : Vector) : M unit :=
  gsl_matrix_set_col (m this) col (v vec).

Definition Sphere (this : Matrix) : M unit :=
  height ← Height this;
  width ← Width this;
  Err.for_ (seq 0 width) (λ col,
    sum ← fold_ (seq 0 height) zero (λ sum row,
             x ← Get this row col; mret (add sum x));
    vec ← Column this col;
    mean ← stats_call gsl_stats_mean (v vec) height;
    stdev ← stats_call gsl_stats_sd (v vec) height;
    gsl_vector_add_constant (v vec) (neg mean);;
    gsl_vector_scale (v vec) (div one stdev);;
    gsl_matrix_set_col (m this) col (v vec);;
    Vector_destroy vec).

(** ** The quantities the further statements speak of *)

(** Column [j] of a block, top to bottom. *)
Definition matrix_column (b : gsl_matrix R) (j : nat) : list R :=
  (λ i, at_ (mdata b) (i * size2 b + j)) <$> seq 0 (size1 b).

(** A block with its dimensions and the right number of cells. *)
Definition shaped (b : gsl_matrix R) : Prop :=
  length (mdata b) = size1 b * size2 b.

(** What [Sphere] leaves in a cell that held [x], in a column [c]. *)
Definition sphered (c : list R) (x : R) : R :=
  mul (add x (neg (gsl_stats_mean c))) (div one (gsl_stats_sd c)).

End Rest.

(** ** Concrete inputs, with integers for the numbers *)

Definition Z_arith : Arith Z :=
  {| zero := 0%Z; one := 1%Z; add := Z.add; mul := Z.mul |}.

(** Blocks that happen to hold zeros when they are handed out. *)
Definition zeros : Uninit Z :=
  {| uninit := λ _ _, 0%Z; uninit_index := λ _ k, k |}.

(** Blocks that happen to hold the [2 × 2] identity when they are handed
    out: offsets 0 and 3 hold 1, the others 0. *)
Definition identity_blocks : Uninit Z :=
  {| uninit := λ _ k, if (k mod 3 =? 0)%nat then 1%Z else 0%Z;
     uninit_index := λ _ k, k |}.

(** Stand-ins for the LU routines: each cell keeps the number it held,
    which is what the routines of GSL leave on a zero matrix and on an
    identity matrix. *)
Definition keep : LU Z :=
  {| LU_decomp_cell := λ a k, nth k (mdata a) 0%Z;
     LU_decomp_index := λ _ k, k;
     LU_invert_cell := λ lu _ k, nth k (mdata lu) 0%Z;
     LU_is_zero := λ u, (u =? 0)%Z |}.

(** A scanner for unsigned decimal integers, the part of the [%lg]
    conversion that the example files need: blanks are skipped, then the
    longest run of digits is read. *)
Fixpoint skip_space (l : list ascii) : list ascii :=
  match l with
  | c :: l' => if is_space c then skip_space l' else l
  | [] => []
  end.

Definition digit_of (c : ascii) : option Z :=
  let n := int_of_byte c in
  if ((48 <=? n) && (n <=? 57))%Z then Some (n - 48)%Z else None.

Fixpoint read_digits (acc : Z) (l : list ascii) : Z * list ascii :=
  match l with
  | c :: l' =>
      match digit_of c with
      | Some d => read_digits (10 * acc + d)%Z l'
      | None => (acc, l)
      end
  | [] => (acc, [])
  end.

Definition scan_decimal (l : list ascii) : option (Z * list ascii) :=
  match skip_space l with
  | c :: l' =>
      match digit_of c with
      | Some d => Some (read_digits d l')
      | None => None
      end
  | [] => None
  end.

Definition text (s : string) : list ascii := list_ascii_of_string s.
Definition newline : list ascii := ["010"%char].

(** The file of the spec's parsing example. *)
Definition two_rows : list ascii :=
  text "1 2 3" ++ newline ++ text "4 5 6" ++ newline.

(** One row, no newline at its end. *)
Definition one_row_unterminated : list ascii := text "1 2 3".

Definition decimal : Scanner Z := {| scan_double := scan_decimal |}.

(** A store with one matrix at address 1. *)
Definition one_matrix (b : gsl_matrix Z) : store Z :=
  {[ 1%positive := OMatrix b ]}.

(** A store with a matrix at address 1 and a second one at address 2. *)
Definition two_matrices (a b : gsl_matrix Z) : store Z :=
  <[ 2%positive := OMatrix b ]> {[ 1%positive := OMatrix a ]}.

(** A store with the matrix [a] at address 1 and a vector at address 2. *)
Definition matrix_and_vector (a : gsl_matrix Z) (x : list Z) : store Z :=
  <[ 2%positive := OVector {| size := length x; vdata := x |} ]>
    {[ 1%positive := OMatrix a ]}.

Definition M1 : Matrix := {| m := 1%positive |}.
Definition M2 : Matrix := {| m := 2%positive |}.
Definition V2 : Vector := {| v := 2%positive |}.

Definition A22 : gsl_matrix Z :=
  {| size1 := 2; size2 := 2; mdata := [1; 2; 3; 4]%Z |}.
Definition B12 : gsl_matrix Z :=
  {| size1 := 1; size2 := 2; mdata := [5; 6]%Z |}.
Definition A11 : gsl_matrix Z :=
  {| size1 := 1; size2 := 1; mdata := [2]%Z |}.
Definition A12 : gsl_matrix Z :=
  {| size1 := 1; size2 := 2; mdata := [1; 2]%Z |}.
Definition D22 : gsl_matrix Z :=
  {| size1 := 2; size2 := 2; mdata := [2; 0; 0; 2]%Z |}.
Definition I22 : gsl_matrix Z :=
  {| size1 := 2; size2 := 2; mdata := [1; 0; 0; 1]%Z |}.
Definition O22 : gsl_matrix Z :=
  {| size1 := 2; size2 := 2; mdata := [0; 0; 0; 0]%Z |}.

Definition Z_Multiply := Multiply (arith := Z_arith) (heap := zeros).
Definition Z_Multiply_Vector :=
  Multiply_Vector (arith := Z_arith) (heap := zeros).
Definition Z_Row := Row (heap := zeros).
Definition Z_Invert := Invert (heap := zeros) (kernel := keep).
Definition Z_Matrix_file := Matrix_file (heap := zeros) (scanner := decimal).

(** Stand-ins for negation, division and the two statistics: the integer
    mean, and 1 for the deviation. *)
Definition Z_stats : Stats Z :=
  {| neg := Z.opp;
     div := Z.div;
     gsl_stats_mean := λ d, (foldr Z.add 0 d / Z.of_nat (length d))%Z;
     gsl_stats_sd := λ _, 1%Z |}.

Definition C22 : gsl_matrix Z :=
  {| size1 := 2; size2 := 2; mdata := [10; 20; 30; 40]%Z |}.

(** A store with one vector at address 2. *)
Definition one_vector (x : list Z) : store Z :=
  {[ 2%positive := OVector {| size := length x; vdata := x |} ]}.

(** A file of two rows whose second row lacks a number. *)
Definition short_file : list ascii :=
  text "1 2 3" ++ newline ++ text "4 5" ++ newline.

(** A file with a byte 255 on its second line. *)
Definition before_255 : list ascii := text "1 2" ++ newline ++ text "3".
Definition after_255 : list ascii := text "4" ++ newline ++ text "5 6" ++ newline.

(** * Statements *)

Section Facts.

Context {R : Type} {arith : Arith R} {heap : Uninit R} {kernel : LU R}.

(** ** Stepping through the monad *)

Lemma bind_Ok {St A B} (c : Err.M St A) (k : A → Err.M St B) s a s' :
  c s = Ok a s' → (c ≫= k) s = k a s'.
Proof. intros H. unfold mbind, err_bind, Err.bind. by rewrite H. Qed.

Lemma bind_Err {St A B} (c : Err.M St A) (k : A → Err.M St B) s e :
  c s = Err e → (c ≫= k) s = Err e.
Proof. intros H. unfold mbind, err_bind, Err.bind. by rewrite H. Qed.

Lemma ret_Ok {St A} (a : A) (s : St) : (mret a : Err.M St A) s = Ok a s.
Proof. done. Qed.

(** A loop over [0 .. n-1] whose every round succeeds and moves an
    invariant from [i] to [i + 1]. *)
Lemma for_seq_from {St} (I : nat → St → Prop) (body : nat → Err.M St unit) n :
  ∀ a s,
    I a s →
    (∀ i s, a ≤ i < a + n → I i s → ∃ s', body i s = Ok tt s' ∧ I (i + 1) s') →
    ∃ s', Err.for_ (seq a n) body s = Ok tt s' ∧ I (a + n) s'.
Proof.
  induction n as [|n IH]; intros a s Ha Hstep; simpl.
  - exists s. by rewrite Nat.add_0_r.
  - destruct (Hstep a s) as (s1 & Hb & H1); [lia|done|].
    unfold Err.bind. rewrite Hb.
    destruct (IH (a + 1) s1) as (s2 & Hl & H2); [done| |].
    + intros i t Hi Ht. apply Hstep; [lia|done].
    + exists s2. replace (S a) with (a + 1) by lia.
      split; [done|]. by replace (a + S n) with (a + 1 + n) by lia.
Qed.

Lemma for_seq_inv {St} (I : nat → St → Prop) (body : nat → Err.M St unit) n s :
  I 0 s →
  (∀ i s, i < n → I i s → ∃ s', body i s = Ok tt s' ∧ I (i + 1) s') →
  ∃ s', Err.for_ (seq 0 n) body s = Ok tt s' ∧ I n s'.
Proof.
  intros H0 Hstep.
  apply (for_seq_from I body n 0 s H0).
  intros i t Hi. apply Hstep. lia.
Qed.

(** ** Blocks and fresh addresses *)

Lemma fresh_lookup (σ : store R) : σ !! fresh (dom σ) = None.
Proof. apply not_elem_of_dom, is_fresh. Qed.

Lemma fresh_ne (σ : store R) l o : σ !! l = Some o → l ≠ fresh (dom σ).
Proof. intros H ->. by rewrite fresh_lookup in H. Qed.

Lemma fresh_dom_ne (σ : store R) l : l ∈ dom σ → fresh (dom σ) ≠ l.
Proof. intros Hl Heq. apply (is_fresh (dom σ)). by rewrite Heq. Qed.

Lemma length_junk l n : length (junk l n) = n.
Proof. unfold junk. by rewrite length_fmap, length_seq. Qed.

(** Copying cell [k] of [src] over a block whose first [k] cells already
    agree with [src]. *)
Lemma fill_step (src old : list R) k x :
  src !! k = Some x → k < length old →
  <[k := x]> (take k src ++ drop k old) = take (S k) src ++ drop (S k) old.
Proof.
  intros Hk Hlt.
  assert (length (take k src) = k) as Hlen.
  { rewrite length_take. apply lookup_lt_Some in Hk. lia. }
  rewrite insert_app_r_alt by lia. rewrite Hlen, Nat.sub_diag.
  rewrite (take_S_r _ _ _ Hk), <- app_assoc. f_equal.
  destruct (drop k old) as [|y rest] eqn:Hd.
  - apply (f_equal length) in Hd. rewrite length_drop in Hd. simpl in Hd. lia.
  - simpl. f_equal. replace (S k) with (k + 1) by lia.
    by rewrite <- drop_drop, Hd.
Qed.

(** *** [Matrix(data, height, width)] copies the first [height * width]
    numbers behind [data] into a block of its own. *)
Lemma Matrix_data_Ok (σ : store R) data o height width :
  σ !! data = Some o →
  height * width ≤ length (buffer o) →
  Matrix_data data height width σ =
    Ok {| m := fresh (dom σ) |}
       (<[fresh (dom σ) :=
            OMatrix {| size1 := height; size2 := width;
                       mdata := take (height * width) (buffer o) |}]> σ).
Proof.
  intros Hdata Hlen. unfold Matrix_data.
  set (l := fresh (dom σ)).
  assert (data ≠ l) as Hne by (by apply fresh_ne with o).
  erewrite bind_Ok; [|reflexivity]. fold l.
  set (old := junk l (height * width)).
  set (blk k := OMatrix {| size1 := height; size2 := width;
                           mdata := take k (buffer o) ++ drop k old |}).
  assert (length old = height * width) as Hold by apply length_junk.
  destruct (for_seq_inv
    (λ row s, s = <[l := blk (row * width)]> σ)
    (λ row, Err.for_ (seq 0 width) (λ col,
       x ← peek data (row * width + col); gsl_matrix_set l row col x))
    height (<[l := blk 0]> σ)) as (s' & Hrun & ->).
  - done.
  - intros row s Hrow ->.
    destruct (for_seq_inv
      (λ col s, s = <[l := blk (row * width + col)]> σ)
      (λ col, x ← peek data (row * width + col); gsl_matrix_set l row col x)
      width (<[l := blk (row * width)]> σ)) as (s' & Hrun & ->).
    + by rewrite Nat.add_0_r.
    + intros col s Hcol ->.
      assert (row * width + col < height * width) as Hk by nia.
      destruct (lookup_lt_is_Some_2 (buffer o) (row * width + col)) as [x Hx];
        [lia|].
      eexists. split; [|reflexivity].
      erewrite bind_Ok; cycle 1.
      { unfold peek. rewrite lookup_insert_ne by done. rewrite Hdata, Hx. done. }
      unfold gsl_matrix_set.
      erewrite bind_Ok; cycle 1.
      { unfold load_matrix. rewrite lookup_insert_eq. done. }
      simpl. rewrite !decide_False by lia.
      rewrite decide_True; cycle 1.
      { rewrite length_app, length_take, length_drop. lia. }
      unfold store_buffer. rewrite lookup_insert_eq. simpl.
      rewrite insert_insert_eq. unfold blk.
      rewrite fill_step by (done || lia).
      by replace (row * width + (col + 1)) with (S (row * width + col)) by lia.
    + eexists. split; [exact Hrun|].
      by replace ((row + 1) * width) with (row * width + width) by lia.
  - erewrite bind_Ok; [|exact Hrun].
    rewrite ret_Ok. unfold blk.
    rewrite drop_ge by lia. by rewrite app_nil_r.
Qed.


(** *** [CloneGSLMatrix] hands back the block as allocated *)

Lemma load_matrix_Ok (σ : store R) l b :
  σ !! l = Some (OMatrix b) → load_matrix l σ = Ok b σ.
Proof. intros H. unfold load_matrix. by rewrite H. Qed.

Lemma load_vector_Ok (σ : store R) l b :
  σ !! l = Some (OVector b) → load_vector l σ = Ok b σ.
Proof. intros H. unfold load_vector. by rewrite H. Qed.

Lemma load_buffer_Ok (σ : store R) l o :
  σ !! l = Some o → load_buffer l σ = Ok (buffer o) σ.
Proof. intros H. unfold load_buffer. by rewrite H. Qed.

Lemma store_buffer_Ok (σ : store R) l o d :
  σ !! l = Some o → store_buffer l d σ = Ok tt (<[l := with_buffer o d]> σ).
Proof. intros H. unfold store_buffer. by rewrite H. Qed.

Lemma peek_Ok (σ : store R) l o k x :
  σ !! l = Some o → buffer o !! k = Some x → peek l k σ = Ok x σ.
Proof. intros H Hk. unfold peek. by rewrite H, Hk. Qed.

Lemma Height_Ok (σ : store R) this b :
  σ !! m this = Some (OMatrix b) → Height this σ = Ok (size1 b) σ.
Proof. intros H. unfold Height. by erewrite bind_Ok by by apply load_matrix_Ok. Qed.

Lemma Width_Ok (σ : store R) this b :
  σ !! m this = Some (OMatrix b) → Width this σ = Ok (size2 b) σ.
Proof. intros H. unfold Width. by erewrite bind_Ok by by apply load_matrix_Ok. Qed.

(** Storing into a cell the number it already holds changes nothing. *)
Lemma Set_same (σ : store R) this b row col x :
  σ !! m this = Some (OMatrix b) →
  row < size1 b → col < size2 b →
  mdata b !! (row * size2 b + col) = Some x →
  Set_ this row col x σ = Ok tt σ.
Proof.
  intros Hthis Hrow Hcol Hx. unfold Set_, gsl_matrix_set.
  erewrite bind_Ok by by apply load_matrix_Ok.
  rewrite !decide_False by lia.
  rewrite decide_True by by eapply lookup_lt_Some.
  erewrite store_buffer_Ok by done.
  rewrite list_insert_id by done.
  destruct b; simpl. by rewrite insert_id.
Qed.

Lemma CloneGSLMatrix_Ok (σ : store R) this b :
  σ !! m this = Some (OMatrix b) →
  length (mdata b) = size1 b * size2 b →
  CloneGSLMatrix this σ =
    Ok (fresh (dom σ))
       (<[fresh (dom σ) :=
            OMatrix {| size1 := size1 b; size2 := size2 b;
                       mdata := junk (fresh (dom σ)) (size1 b * size2 b) |}]> σ).
Proof.
  intros Hthis Hlen. unfold CloneGSLMatrix.
  erewrite bind_Ok by by apply Height_Ok.
  erewrite bind_Ok by by apply Width_Ok.
  erewrite bind_Ok by reflexivity.
  set (l := fresh (dom σ)). set (σ1 := <[l := _]> σ).
  assert (σ1 !! m this = Some (OMatrix b)) as Hthis1.
  { unfold σ1. rewrite lookup_insert_ne; [done|].
    apply not_eq_sym. by eapply fresh_ne. }
  destruct (for_seq_inv (λ _ s, s = σ1)
    (λ row, Err.for_ (seq 0 (size2 b)) (λ col,
       x ← peek (m this) (row * size2 b + col); Set_ this row col x))
    (size1 b) σ1) as (s' & Hrun & ->); [done| |].
  - intros row s Hrow ->.
    destruct (for_seq_inv (λ _ s, s = σ1)
      (λ col, x ← peek (m this) (row * size2 b + col); Set_ this row col x)
      (size2 b) σ1) as (s' & Hrun & ->); [done| |by exists σ1].
    intros col s Hcol ->.
    destruct (lookup_lt_is_Some_2 (mdata b) (row * size2 b + col)) as [x Hx];
      [nia|].
    exists σ1. split; [|done].
    erewrite bind_Ok by by eapply peek_Ok.
    by eapply Set_same.
  - erewrite bind_Ok by exact Hrun. done.
Qed.


(** ** [Invert] *)

Lemma length_Invert_cells D n : length (Invert_cells D n) = n * n.
Proof. unfold Invert_cells. by rewrite length_imap, length_junk. Qed.

(** What [Invert] does on a square matrix: the run and the store it
    leaves, by the factor found in the block it decomposes. *)
Lemma Invert_run (σ : store R) this b :
  σ !! m this = Some (OMatrix b) →
  size1 b = size2 b →
  length (mdata b) = size1 b * size2 b →
  let n := size2 b in
  let t := fresh ({[fresh (dom σ)]} ∪ dom σ) in
  let r := fresh ({[t]} ∪ dom σ) in
  let inv := OMatrix {| size1 := n; size2 := n;
                        mdata := Invert_cells (dom σ) n |} in
  Invert this σ
  = if singular (Invert_factor (dom σ) n)
    then Err (GslError "matrix is singular")
    else Ok {| m := r |} (<[r := inv]> (<[t := inv]> σ)).
Proof.
  intros Hthis Hsq Hlen n t r inv. unfold Invert.
  erewrite bind_Ok by by apply Width_Ok. fold n.
  erewrite bind_Ok by by apply CloneGSLMatrix_Ok.
  rewrite Hsq. fold n.
  set (c := fresh (dom σ)).
  set (a := {| size1 := n; size2 := n; mdata := junk c (n * n) |}).
  set (σ1 := <[c := OMatrix a]> σ).
  erewrite bind_Ok by reflexivity.
  set (i := fresh (dom σ1)).
  set (σ2 := <[i := OMatrix {| size1 := n; size2 := n; mdata := junk i (n * n) |}]> σ1).
  erewrite bind_Ok by reflexivity.
  set (p := fresh (dom σ2)).
  set (pj := uninit_index p <$> seq 0 n).
  set (σ3 := <[p := OPermutation pj]> σ2).
  assert (c ∉ dom σ) as Hc by apply is_fresh.
  assert (i ∉ dom σ1) as Hi by apply is_fresh.
  assert (p ∉ dom σ2) as Hp by apply is_fresh.
  assert (dom σ1 = {[c]} ∪ dom σ) as Hdom1 by apply dom_insert_L.
  assert (dom σ2 = {[i]} ∪ ({[c]} ∪ dom σ)) as Hdom2.
  { unfold σ2. by rewrite dom_insert_L, Hdom1. }
  assert (i ≠ c) as Hic.
  { apply fresh_dom_ne. rewrite Hdom1. apply elem_of_union_l. by apply elem_of_singleton. }
  assert (c ∈ dom σ2) as Hc2.
  { rewrite Hdom2. apply elem_of_union_r, elem_of_union_l. by apply elem_of_singleton. }
  assert (i ∈ dom σ2) as Hi2.
  { rewrite Hdom2. apply elem_of_union_l. by apply elem_of_singleton. }
  assert (p ≠ c) as Hpc by by apply fresh_dom_ne.
  assert (p ≠ i) as Hpi by by apply fresh_dom_ne.
  assert (i ∉ dom σ) as Hiσ.
  { intros Hin. apply Hi. rewrite Hdom1. by apply elem_of_union_r. }
  assert (p ∉ dom σ) as Hpσ.
  { intros Hin. apply Hp. rewrite Hdom2. by do 2 apply elem_of_union_r. }
  (* gsl_linalg_LU_decomp *)
  set (lu := {| size1 := n; size2 := n;
                mdata := imap (λ k _, LU_decomp_cell a k) (mdata a) |}).
  set (p' := imap (λ k _, LU_decomp_index a k) pj).
  set (σ5 := <[p := OPermutation p']> (<[c := OMatrix lu]> σ3)).
  erewrite (bind_Ok (gsl_linalg_LU_decomp c p) _ σ3 tt σ5); cycle 1.
  { unfold gsl_linalg_LU_decomp.
    erewrite bind_Ok; cycle 1.
    { apply load_matrix_Ok. unfold σ3, σ2, σ1. by simplify_map_eq. }
    erewrite bind_Ok; cycle 1.
    { unfold load_permutation, σ3. by simplify_map_eq. }
    rewrite decide_False by (simpl; lia).
    rewrite decide_False; cycle 1.
    { unfold pj. rewrite length_fmap, length_seq. simpl. lia. }
    erewrite bind_Ok; cycle 1.
    { apply store_buffer_Ok. unfold σ3, σ2, σ1. by simplify_map_eq. }
    unfold store_permutation, σ3. by simplify_map_eq. }
  (* gsl_linalg_LU_invert *)
  assert (Invert_factor (dom σ) n = lu) as -> by reflexivity.
  assert (σ5 !! c = Some (OMatrix lu)) as Hlu.
  { unfold σ5. by simplify_map_eq. }
  assert (σ5 !! p = Some (OPermutation p')) as Hp'.
  { unfold σ5. by simplify_map_eq. }
  assert (σ5 !! i = Some (OMatrix {| size1 := n; size2 := n;
                                     mdata := junk i (n * n) |})) as Hinv5.
  { unfold σ5, σ3, σ2. by simplify_map_eq. }
  destruct (singular lu) eqn:Hsing.
  { erewrite (bind_Err (gsl_linalg_LU_invert c p i)); [done|].
    unfold gsl_linalg_LU_invert.
    erewrite bind_Ok by by apply load_matrix_Ok.
    erewrite bind_Ok by (unfold load_permutation; by rewrite Hp').
    erewrite bind_Ok by by apply load_matrix_Ok.
    by rewrite Hsing. }
  set (cells := imap (λ k _, LU_invert_cell lu p' k) (junk i (n * n))).
  set (σ6 := <[i := OMatrix {| size1 := n; size2 := n; mdata := cells |}]> σ5).
  erewrite (bind_Ok (gsl_linalg_LU_invert c p i) _ σ5 tt σ6); cycle 1.
  { unfold gsl_linalg_LU_invert.
    erewrite bind_Ok by by apply load_matrix_Ok.
    erewrite bind_Ok by (unfold load_permutation; by rewrite Hp').
    erewrite bind_Ok by by apply load_matrix_Ok.
    rewrite Hsing.
    rewrite decide_False by (simpl; lia).
    rewrite decide_False; cycle 1.
    { unfold p', pj. rewrite length_imap, length_fmap, length_seq. simpl. lia. }
    rewrite decide_False by (simpl; lia).
    by erewrite store_buffer_Ok by exact Hinv5. }
  erewrite bind_Ok by reflexivity.
  erewrite bind_Ok by reflexivity.
  set (σ8 := delete c (delete p σ6)).
  assert (σ8 = <[i := OMatrix {| size1 := n; size2 := n; mdata := cells |}]> σ)
    as Hσ8.
  { apply map_eq. intros l. unfold σ8, σ6, σ5, σ3, σ2, σ1.
    destruct (decide (l = c)) as [->|Hlc].
    { rewrite lookup_delete_eq, lookup_insert_ne by done.
      apply eq_sym, fresh_lookup. }
    rewrite lookup_delete_ne by done.
    destruct (decide (l = p)) as [->|Hlp].
    { rewrite lookup_delete_eq, lookup_insert_ne by done.
      apply eq_sym. by apply not_elem_of_dom. }
    rewrite lookup_delete_ne by done.
    destruct (decide (l = i)) as [->|Hli].
    { by rewrite !lookup_insert_eq. }
    by rewrite !lookup_insert_ne by done. }
  assert (length cells = n * n) as Hcells.
  { unfold cells. by rewrite length_imap, length_junk. }
  assert (σ8 !! i = Some (OMatrix {| size1 := n; size2 := n; mdata := cells |}))
    as Hinv8.
  { rewrite Hσ8. apply lookup_insert_eq. }
  erewrite Matrix_data_Ok; [|exact Hinv8|simpl; lia].
  change (Ok {| m := fresh (dom σ8) |}
             (<[fresh (dom σ8) :=
                  OMatrix {| size1 := n; size2 := n;
                             mdata := take (n * n) cells |}]> σ8)
          = Ok {| m := r |} (<[r := inv]> (<[t := inv]> σ))).
  rewrite take_ge by lia.
  assert (t = i) as ->.
  { unfold t, i. by rewrite Hdom1. }
  assert (dom σ8 = {[i]} ∪ dom σ) as Hdom8.
  { rewrite Hσ8. apply dom_insert_L. }
  unfold r. rewrite Hdom8, Hσ8.
  assert (Invert_cells (dom σ) n = cells) as Hinvc.
  { unfold Invert_cells. cbv zeta.
    assert (dom σ1 = {[fresh (dom σ)]} ∪ dom σ) as <- by apply dom_insert_L.
    assert (dom σ2 = {[fresh (dom σ1)]} ∪ dom σ1) as <- by apply dom_insert_L.
    done. }
  unfold inv. by rewrite Hinvc.
Qed.

(** The two blocks that [Invert] leaves are new and distinct. *)
Lemma Invert_addresses (D : gset loc) :
  let t := fresh ({[fresh D]} ∪ D) in
  let r := fresh ({[t]} ∪ D) in
  (t ∉ D) ∧ (r ∉ D) ∧ t ≠ r.
Proof.
  intros t r.
  assert (t ∉ {[fresh D]} ∪ D) as Ht by apply is_fresh.
  assert (r ∉ {[t]} ∪ D) as Hr by apply is_fresh.
  split; [|split].
  - intros Hin. apply Ht. by apply elem_of_union_r.
  - intros Hin. apply Hr. by apply elem_of_union_r.
  - intros Heq. apply Hr. rewrite <- Heq.
    apply elem_of_union_l. by apply elem_of_singleton.
Qed.


(** *** [Clone] *)

Lemma Clone_Ok (σ : store R) this b :
  σ !! m this = Some (OMatrix b) →
  length (mdata b) = size1 b * size2 b →
  Clone this σ =
    Ok {| m := fresh (dom σ) |}
       (<[fresh (dom σ) :=
            OMatrix {| size1 := size2 b; size2 := size1 b; mdata := mdata b |}]> σ).
Proof.
  intros Hthis Hlen. unfold Clone.
  erewrite bind_Ok by by apply Width_Ok.
  erewrite bind_Ok by by apply Height_Ok.
  erewrite Matrix_data_Ok; [|done|simpl; lia].
  simpl. by rewrite take_ge by lia.
Qed.

(** ** The [dgemm] kernel *)

Lemma at_lookup (d : list R) k x : d !! k = Some x → at_ d k = x.
Proof. intros H. unfold at_. by rewrite H. Qed.

Lemma gemm_temp_from (F G : list R) a b K : ∀ acc,
  a + K ≤ length F → b + K ≤ length G →
  foldl (λ temp k, add temp (mul (at_ F (a + k)) (at_ G (b + k)))) acc (seq 0 K)
  = foldl (λ acc ab, add acc (mul ab.1 ab.2)) acc
      (zip (take K (drop a F)) (take K (drop b G))).
Proof.
  induction K as [|K IH]; intros acc HF HG; [done|].
  rewrite seq_S, foldl_app. simpl.
  destruct (lookup_lt_is_Some_2 F (a + K)) as [x Hx]; [lia|].
  destruct (lookup_lt_is_Some_2 G (b + K)) as [y Hy]; [lia|].
  rewrite (take_S_r (drop a F) K x) by by rewrite lookup_drop.
  rewrite (take_S_r (drop b G) K y) by by rewrite lookup_drop.
  rewrite zip_with_app; cycle 1.
  { rewrite !length_take, !length_drop. lia. }
  rewrite foldl_app. simpl.
  rewrite IH by lia.
  by rewrite (at_lookup _ _ _ Hx), (at_lookup _ _ _ Hy).
Qed.

Lemma gemm_temp_dot (F G : list R) ldf ldg i j K :
  ldf * i + K ≤ length F → ldg * j + K ≤ length G →
  gemm_temp K F ldf i G ldg j
  = dot (take K (drop (ldf * i) F)) (take K (drop (ldg * j) G)).
Proof. intros. unfold gemm_temp, dot. by apply gemm_temp_from. Qed.

(** One pass over the cells [base .. base + n - 1] of a buffer, each
    replaced by a function of what it held. *)
Lemma row_pass (g : nat → R → R) base n : ∀ (C : list R),
  let C' := foldl (λ C j, <[base + j := g j (at_ C (base + j))]> C) C (seq 0 n) in
  length C' = length C
  ∧ ∀ p, C' !! p = if decide (base ≤ p < base + n)
                   then g (p - base) <$> C !! p else C !! p.
Proof.
  induction n as [|n IH]; intros C; cbv zeta.
  - split; [done|]. intros p. by rewrite decide_False by lia.
  - rewrite seq_S, foldl_app. simpl.
    destruct (IH C) as [Hlen Hget].
    set (C1 := foldl _ C (seq 0 n)) in *.
    split; [by rewrite length_insert|].
    intros p. destruct (decide (p = base + n)) as [->|Hne].
    + rewrite decide_True by lia.
      replace (base + n - base) with n by lia.
      destruct (decide (base + n < length C)) as [Hin|Hout].
      * rewrite list_lookup_insert_eq by lia.
        destruct (lookup_lt_is_Some_2 C (base + n)) as [y Hy]; [done|].
        assert (C1 !! (base + n) = Some y) as Hy1.
        { rewrite Hget. by rewrite decide_False by lia. }
        by rewrite (at_lookup _ _ _ Hy1), Hy.
      * rewrite list_insert_ge by lia.
        rewrite (lookup_ge_None_2 C1) by lia.
        by rewrite (lookup_ge_None_2 C) by lia.
    + rewrite list_lookup_insert_ne by done.
      rewrite Hget. repeat case_decide; (done || lia).
Qed.

(** The two nested loops of the kernel over an [n1 × n2] grid with
    leading dimension [ldc]. *)
Lemma grid_pass (g : nat → nat → R → R) ldc n2 : n2 ≤ ldc → ∀ n1 (C : list R),
  let C' := foldl (λ C i,
              foldl (λ C j, <[ldc * i + j := g i j (at_ C (ldc * i + j))]> C)
                    C (seq 0 n2)) C (seq 0 n1) in
  length C' = length C
  ∧ (∀ p, ldc * n1 ≤ p → C' !! p = C !! p)
  ∧ ∀ i j, i < n1 → j < n2 →
      C' !! (ldc * i + j) = g i j <$> C !! (ldc * i + j).
Proof.
  intros Hld. induction n1 as [|n1 IH]; intros C; cbv zeta.
  - split; [done|]. split; [done|]. intros; lia.
  - rewrite seq_S, foldl_app. simpl.
    destruct (IH C) as (Hlen & Hrest & Hget).
    set (C1 := foldl _ C (seq 0 n1)) in *.
    destruct (row_pass (g n1) (ldc * n1) n2 C1) as [Hlen2 Hget2].
    simpl in Hlen2, Hget2.
    split; [by rewrite Hlen2|]. split.
    + intros p Hp. rewrite Hget2, decide_False by nia. apply Hrest. nia.
    + intros i j Hi Hj. rewrite Hget2.
      destruct (decide (i = n1)) as [->|Hne].
      * rewrite decide_True by lia.
        replace (ldc * n1 + j - ldc * n1) with j by lia.
        by rewrite Hrest by lia.
      * rewrite decide_False by nia. apply Hget; lia.
Qed.

Lemma length_gemm_clear n1 n2 (C : list R) ldc :
  n2 ≤ ldc → length (gemm_clear n1 n2 C ldc) = length C.
Proof.
  intros Hld. unfold gemm_clear.
  by destruct (grid_pass (λ _ _ _, zero) ldc n2 Hld n1 C) as (? & _).
Qed.

(** Cell [(i, j)] after the call with [beta = 0]. *)
Lemma gemm_cell n1 n2 K alpha (F : list R) ldf G ldg (C : list R) ldc i j :
  n2 ≤ ldc → i < n1 → j < n2 → ldc * i + j < length C →
  gemm_NT n1 n2 K alpha F ldf G ldg (gemm_clear n1 n2 C ldc) ldc !! (ldc * i + j)
  = Some (add zero (mul alpha (gemm_temp K F ldf i G ldg j))).
Proof.
  intros Hld Hi Hj Hin. unfold gemm_NT.
  destruct (grid_pass (λ i j y, add y (mul alpha (gemm_temp K F ldf i G ldg j)))
              ldc n2 Hld n1 (gemm_clear n1 n2 C ldc)) as (_ & _ & Hget).
  rewrite Hget by done. clear Hget.
  unfold gemm_clear.
  destruct (grid_pass (λ _ _ _, zero) ldc n2 Hld n1 C) as (_ & _ & Hget).
  rewrite Hget by done.
  by destruct (lookup_lt_is_Some_2 C (ldc * i + j)) as [y ->].
Qed.

Lemma length_gemm n1 n2 K alpha (F : list R) ldf G ldg (C : list R) ldc :
  n2 ≤ ldc →
  length (gemm_NT n1 n2 K alpha F ldf G ldg (gemm_clear n1 n2 C ldc) ldc)
  = length C.
Proof.
  intros Hld. unfold gemm_NT.
  destruct (grid_pass (λ i j y, add y (mul alpha (gemm_temp K F ldf i G ldg j)))
              ldc n2 Hld n1 (gemm_clear n1 n2 C ldc)) as (Hlen & _).
  rewrite Hlen. by apply length_gemm_clear.
Qed.


(** ** [Multiply] *)

(** The two facts about [double] arithmetic that the statements on
    [Multiply] rest on: [0.0 + x] and [1.0 * x] are [x]. *)
Hypothesis add_zero_l : ∀ x, add zero x = x.
Hypothesis mul_one_l : ∀ x, mul one x = x.

Lemma gemm_error_pos_0 K N lda ldb ldc :
  0 < K → 0 < N → K ≤ lda → K ≤ ldb → N ≤ ldc →
  gemm_error_pos K N lda ldb ldc = 0.
Proof. intros. unfold gemm_error_pos. by rewrite !decide_False by lia. Qed.

(** [Multiply] when the right operand is at least as wide as the left
    one: the call goes through and reads the first [Width()] numbers of
    every row of [other]. *)
Lemma Multiply_Ok (σ : store R) this other a b :
  σ !! m this = Some (OMatrix a) →
  σ !! m other = Some (OMatrix b) →
  valid a → valid b → size2 a ≤ size2 b →
  ∃ r σ' cells,
    Multiply this other σ = Ok r σ'
    ∧ σ' !! m r = Some (OMatrix {| size1 := size1 a; size2 := size1 b;
                                   mdata := cells |})
    ∧ ∀ i j, i < size1 a → j < size1 b →
        cells !! (i * size1 b + j)
        = Some (dot (matrix_row a i) (take (size2 a) (matrix_row b j))).
Proof.
  intros Hthis Hother (Ha1 & Ha2 & Hla) (Hb1 & Hb2 & Hlb) Hw.
  unfold Multiply.
  erewrite bind_Ok by by apply Height_Ok.
  erewrite bind_Ok by by apply Height_Ok.
  erewrite bind_Ok by reflexivity.
  set (l := fresh (dom σ)).
  set (c := junk l (size1 a * size1 b)).
  set (σ1 := <[l := OMatrix {| size1 := size1 a; size2 := size1 b; mdata := c |}]> σ).
  assert (m this ≠ l) as Hne1 by by eapply fresh_ne.
  assert (m other ≠ l) as Hne2 by by eapply fresh_ne.
  assert (σ1 !! m this = Some (OMatrix a)) as Hthis1.
  { unfold σ1. by rewrite lookup_insert_ne. }
  assert (σ1 !! m other = Some (OMatrix b)) as Hother1.
  { unfold σ1. by rewrite lookup_insert_ne. }
  assert (σ1 !! l = Some (OMatrix {| size1 := size1 a; size2 := size1 b; mdata := c |}))
    as Hl1 by apply lookup_insert_eq.
  assert (length c = size1 a * size1 b) as Hlc by apply length_junk.
  erewrite bind_Ok by by apply Width_Ok.
  erewrite bind_Ok by by apply Width_Ok.
  erewrite bind_Ok by by apply load_matrix_Ok.
  simpl.
  set (cells := gemm_NT (size1 a) (size1 b) (size2 a) one (mdata a) (size2 a)
                  (mdata b) (size2 b)
                  (gemm_clear (size1 a) (size1 b) c (size1 b)) (size1 b)).
  set (σ2 := <[l := OMatrix {| size1 := size1 a; size2 := size1 b; mdata := cells |}]> σ).
  erewrite (bind_Ok _ _ σ1 tt σ2); cycle 1.
  { unfold cblas_dgemm.
    rewrite gemm_error_pos_0 by lia.
    rewrite decide_False by lia.
    erewrite bind_Ok by by apply load_buffer_Ok.
    erewrite bind_Ok by by apply load_buffer_Ok.
    erewrite bind_Ok by by apply load_buffer_Ok.
    simpl. rewrite decide_True; cycle 1.
    { unfold fits. repeat split; right; right; nia. }
    erewrite store_buffer_Ok by done.
    simpl. unfold σ1. by rewrite insert_insert_eq. }
  assert (length cells = size1 a * size1 b) as Hcells.
  { unfold cells. by rewrite length_gemm. }
  erewrite Matrix_data_Ok; cycle 1.
  { unfold σ2. apply lookup_insert_eq. }
  { simpl. lia. }
  eexists _, _, _. split; [done|]. simpl.
  split; [by rewrite lookup_insert_eq|].
  intros i j Hi Hj.
  rewrite lookup_take_lt by nia.
  replace (i * size1 b + j) with (size1 b * i + j) by lia.
  unfold cells. rewrite gemm_cell by (done || nia).
  rewrite add_zero_l, mul_one_l.
  rewrite gemm_temp_dot by nia.
  unfold matrix_row. rewrite take_take.
  replace (size2 a `min` size2 b) with (size2 a) by lia.
  by rewrite (Nat.mul_comm (size2 a) i), (Nat.mul_comm (size2 b) j).
Qed.


Lemma Get_Ok (σ : store R) r b i j x :
  σ !! m r = Some (OMatrix b) →
  i < size1 b → j < size2 b →
  mdata b !! (i * size2 b + j) = Some x →
  Get r i j σ = Ok x σ.
Proof.
  intros Hr Hi Hj Hx. unfold Get, gsl_matrix_get.
  erewrite bind_Ok by by apply load_matrix_Ok.
  rewrite !decide_False by lia.
  by eapply peek_Ok.
Qed.

(** C1.  For matrices [A] ([m × k]) and [B] ([n × k]) that satisfy the
    data model's invariant, [Multiply (A, B)] returns a matrix of height
    [m] and width [n] whose entry [(i, j)] is the dot product of row [i]
    of [A] and row [j] of [B], for all [i < m] and [j < n]. *)
Theorem Multiply_entry_is_dot_of_rows (σ : store R) this other a b :
  σ !! m this = Some (OMatrix a) →
  σ !! m other = Some (OMatrix b) →
  valid a → valid b → size2 a = size2 b →
  ∃ r σ',
    Multiply this other σ = Ok r σ'
    ∧ Height r σ' = Ok (size1 a) σ'
    ∧ Width r σ' = Ok (size1 b) σ'
    ∧ ∀ i j, i < size1 a → j < size1 b →
        Get r i j σ' = Ok (dot (matrix_row a i) (matrix_row b j)) σ'.
Proof.
  intros Hthis Hother Ha Hb Hw.
  destruct (Multiply_Ok σ this other a b) as (r & σ' & cells & Hrun & Hr & Hcells);
    [done..|lia|].
  exists r, σ'. split; [done|].
  split; [by erewrite Height_Ok by done|].
  split; [by erewrite Width_Ok by done|].
  intros i j Hi Hj.
  eapply Get_Ok; [done|done|done|]. simpl.
  rewrite Hcells by done. do 2 f_equal.
  unfold matrix_row. rewrite Hw, take_take. f_equal. lia.
Qed.

(** [Multiply] has no check of its own; the only one on its path is the
    argument check of [cblas_dgemm], which looks at the leading dimension
    of [other] and rejects it when it is smaller than [K = Width()]. *)
Lemma Multiply_narrow_other (σ : store R) this other a b :
  σ !! m this = Some (OMatrix a) →
  σ !! m other = Some (OMatrix b) →
  valid b → size2 b < size2 a →
  Multiply this other σ = Err (Xerbla 11).
Proof.
  intros Hthis Hother (Hb1 & Hb2 & Hlb) Hw. unfold Multiply.
  erewrite bind_Ok by by apply Height_Ok.
  erewrite bind_Ok by by apply Height_Ok.
  erewrite bind_Ok by reflexivity.
  set (l := fresh (dom σ)). set (σ1 := <[l := _]> σ).
  assert (σ1 !! m this = Some (OMatrix a)) as Hthis1.
  { unfold σ1. rewrite lookup_insert_ne; [done|]. apply not_eq_sym. by eapply fresh_ne. }
  assert (σ1 !! m other = Some (OMatrix b)) as Hother1.
  { unfold σ1. rewrite lookup_insert_ne; [done|]. apply not_eq_sym. by eapply fresh_ne. }
  erewrite bind_Ok by by apply Width_Ok.
  erewrite bind_Ok by by apply Width_Ok.
  erewrite bind_Ok by (apply load_matrix_Ok; apply lookup_insert_eq).
  simpl. apply bind_Err. unfold cblas_dgemm, gemm_error_pos.
  rewrite (decide_False (P := size2 a < _)) by lia.
  rewrite (decide_True (P := size2 b < _)) by lia.
  rewrite (decide_False (P := size1 b < _)) by lia.
  by rewrite decide_True by lia.
Qed.

(** C7, as amended.  When the widths differ, [Multiply (A, B)] fails, in
    the argument check of [cblas_dgemm] (parameter 11, the leading
    dimension of [B]), if [B] is the narrower one; if [B] is the wider one
    it returns the [A.height × B.height] matrix whose entry [(i, j)] is the
    dot product of row [i] of [A] and the first [A.width] numbers of row
    [j] of [B]. *)
Theorem Multiply_widths_differ (σ : store R) this other a b :
  σ !! m this = Some (OMatrix a) →
  σ !! m other = Some (OMatrix b) →
  valid a → valid b → size2 a ≠ size2 b →
  (size2 b < size2 a ∧ Multiply this other σ = Err (Xerbla 11))
  ∨ (size2 a < size2 b ∧
     ∃ r σ',
       Multiply this other σ = Ok r σ'
       ∧ Height r σ' = Ok (size1 a) σ'
       ∧ Width r σ' = Ok (size1 b) σ'
       ∧ ∀ i j, i < size1 a → j < size1 b →
           Get r i j σ'
           = Ok (dot (matrix_row a i) (take (size2 a) (matrix_row b j))) σ').
Proof.
  intros Hthis Hother Ha Hb Hw.
  destruct (decide (size2 b < size2 a)) as [Hlt|Hge].
  - left. split; [done|]. by eapply Multiply_narrow_other.
  - right. split; [lia|].
    destruct (Multiply_Ok σ this other a b) as (r & σ' & cells & Hrun & Hr & Hcells);
      [done..|lia|].
    exists r, σ'. split; [done|].
    split; [by erewrite Height_Ok by done|].
    split; [by erewrite Width_Ok by done|].
    intros i j Hi Hj.
    eapply Get_Ok; [done|done|done|]. simpl. by apply Hcells.
Qed.

(** C9, as amended.  For a square [n × n] matrix, [Invert] ends in one of
    two ways, by the factor that [gsl_linalg_LU_decomp] leaves in the
    block it decomposes.  When that factor has a zero on its diagonal,
    GSL's error handler ends the run with [matrix is singular] and no
    matrix is returned.  Otherwise [Invert] returns a matrix in a block
    whose address was not in use before the call, of height and width [n]
    with [n * n] numbers, and the receiver's block, like every block that
    was live before the call, is left as it was. *)
Theorem Invert_new_matrix_receiver_unchanged (σ : store R) this b :
  σ !! m this = Some (OMatrix b) →
  size1 b = size2 b →
  length (mdata b) = size1 b * size2 b →
  (singular (Invert_factor (dom σ) (size2 b)) = true
   ∧ Invert this σ = Err (GslError "matrix is singular"))
  ∨ (singular (Invert_factor (dom σ) (size2 b)) = false
     ∧ ∃ r σ' cells,
         Invert this σ = Ok r σ'
         ∧ (m r ∉ dom σ)
         ∧ σ' !! m r = Some (OMatrix {| size1 := size2 b; size2 := size2 b;
                                        mdata := cells |})
         ∧ length cells = size2 b * size2 b
         ∧ σ' !! m this = Some (OMatrix b)
         ∧ ∀ l, l ∈ dom σ → σ' !! l = σ !! l).
Proof.
  intros Hthis Hsq Hlen.
  pose proof (Invert_run σ this b Hthis Hsq Hlen) as Hrun. cbv zeta in Hrun.
  destruct (Invert_addresses (dom σ)) as (Ht & Hr & Htr).
  destruct (singular (Invert_factor (dom σ) (size2 b))); [by left|].
  right. split; [done|].
  set (t := fresh ({[fresh (dom σ)]} ∪ dom σ)) in *.
  set (r := fresh ({[t]} ∪ dom σ)) in *.
  assert (∀ l, l ∈ dom σ →
            (<[r := OMatrix {| size1 := size2 b; size2 := size2 b;
                               mdata := Invert_cells (dom σ) (size2 b) |}]>
               (<[t := OMatrix {| size1 := size2 b; size2 := size2 b;
                                  mdata := Invert_cells (dom σ) (size2 b) |}]> σ))
            !! l = σ !! l) as Hframe.
  { intros l Hl.
    rewrite !lookup_insert_ne; [done|intros <-; done|intros <-; done]. }
  eexists {| m := r |}, _, (Invert_cells (dom σ) (size2 b)).
  split; [exact Hrun|]. simpl.
  split; [done|].
  split; [apply lookup_insert_eq|].
  split; [apply length_Invert_cells|].
  split; [|done].
  rewrite Hframe; [done|]. by apply elem_of_dom.
Qed.


(** ** [Row] and [SetRow] *)

Lemma matrix_row_lookup (b : gsl_matrix R) i j :
  j < size2 b → matrix_row b i !! j = mdata b !! (i * size2 b + j).
Proof.
  intros Hj. unfold matrix_row.
  by rewrite lookup_take_lt, lookup_drop by done.
Qed.

Lemma length_matrix_row (b : gsl_matrix R) i :
  length (mdata b) = size1 b * size2 b → i < size1 b →
  length (matrix_row b i) = size2 b.
Proof.
  intros Hlen Hi. unfold matrix_row. rewrite length_take, length_drop. nia.
Qed.

(** [Row] returns a vector in a block of its own that holds the row. *)
Lemma Row_Ok (σ : store R) this b row :
  σ !! m this = Some (OMatrix b) →
  length (mdata b) = size1 b * size2 b →
  row < size1 b →
  Row this row σ =
    Ok {| v := fresh (dom σ) |}
       (<[fresh (dom σ) :=
            OVector {| size := size2 b; vdata := matrix_row b row |}]> σ).
Proof.
  intros Hthis Hlen Hrow. unfold Row.
  erewrite bind_Ok by by apply Width_Ok.
  erewrite bind_Ok by reflexivity.
  set (l := fresh (dom σ)).
  set (old := junk l (size2 b)).
  set (blk k := OVector {| size := size2 b;
                           vdata := take k (matrix_row b row) ++ drop k old |}).
  assert (m this ≠ l) as Hne by by eapply fresh_ne.
  assert (length old = size2 b) as Hold by apply length_junk.
  assert (length (matrix_row b row) = size2 b) as Hlr by by apply length_matrix_row.
  erewrite (bind_Ok _ _ _ tt (<[l := blk (size2 b)]> σ)); cycle 1.
  { unfold gsl_matrix_get_row.
    erewrite bind_Ok; cycle 1.
    { apply load_matrix_Ok. by rewrite lookup_insert_ne. }
    erewrite bind_Ok; cycle 1.
    { apply load_vector_Ok. apply lookup_insert_eq. }
    rewrite decide_False by lia.
    rewrite decide_False by (simpl; intros ?; done).
    destruct (for_seq_inv (λ j s, s = <[l := blk j]> σ)
      (λ j, x ← peek (m this) (row * size2 b + j);
            d ← load_buffer l;
            if decide (j < length d) then store_buffer l (<[j := x]> d)
            else Err.raise Fault)
      (size2 b) (<[l := blk 0]> σ)) as (s' & Hrun & ->); [done| |exact Hrun].
    intros j s Hj ->.
    destruct (lookup_lt_is_Some_2 (mdata b) (row * size2 b + j)) as [x Hx];
      [nia|].
    eexists. split; [|reflexivity].
    erewrite bind_Ok; cycle 1.
    { eapply peek_Ok; [by rewrite lookup_insert_ne|done]. }
    erewrite bind_Ok; cycle 1.
    { apply load_buffer_Ok. apply lookup_insert_eq. }
    simpl. rewrite decide_True; cycle 1.
    { rewrite length_app, length_take, length_drop. lia. }
    erewrite store_buffer_Ok by apply lookup_insert_eq.
    simpl. rewrite insert_insert_eq.
    rewrite fill_step; [|by rewrite matrix_row_lookup|lia].
    by replace (j + 1) with (S j) by lia. }
  unfold Vector_gsl. rewrite ret_Ok. unfold blk.
  rewrite drop_ge by lia. rewrite app_nil_r.
  by rewrite take_ge by lia.
Qed.

(** Writing back into row [row] the numbers that the row holds changes
    no block. *)
Lemma SetRow_same (σ : store R) this b row vec :
  σ !! m this = Some (OMatrix b) →
  σ !! v vec = Some (OVector {| size := size2 b; vdata := matrix_row b row |}) →
  length (mdata b) = size1 b * size2 b →
  row < size1 b →
  SetRow this row vec σ = Ok tt σ.
Proof.
  intros Hthis Hvec Hlen Hrow. unfold SetRow, gsl_matrix_set_row.
  erewrite bind_Ok by by apply load_matrix_Ok.
  erewrite bind_Ok by by apply load_vector_Ok.
  rewrite decide_False by lia.
  rewrite decide_False by (simpl; intros ?; done).
  destruct (for_seq_inv (λ _ s, s = σ)
    (λ j, x ← peek (v vec) j;
          d ← load_buffer (m this);
          if decide (row * size2 b + j < length d)
          then store_buffer (m this) (<[row * size2 b + j := x]> d)
          else Err.raise Fault)
    (size2 b) σ) as (s' & Hrun & ->); [done| |done].
  intros j s Hj ->. exists σ. split; [|done].
  destruct (lookup_lt_is_Some_2 (mdata b) (row * size2 b + j)) as [x Hx];
    [nia|].
  erewrite bind_Ok; cycle 1.
  { eapply peek_Ok; [done|]. simpl. by rewrite matrix_row_lookup. }
  erewrite bind_Ok by by apply load_buffer_Ok.
  simpl. rewrite decide_True by nia.
  erewrite store_buffer_Ok by done.
  rewrite list_insert_id by done.
  destruct b; simpl. by rewrite insert_id.
Qed.

(** C8.  For a row index [i < M.height], [Row (M, i)] followed by
    [SetRow (M, i, ...)] on the vector it returned succeeds and leaves the
    block of [M], dimensions and every number, as it was before; [SetRow]
    itself changes no block at all. *)
Theorem SetRow_of_Row_unchanged (σ : store R) this b i :
  σ !! m this = Some (OMatrix b) →
  length (mdata b) = size1 b * size2 b →
  i < size1 b →
  ∃ vec σ1,
    Row this i σ = Ok vec σ1
    ∧ SetRow this i vec σ1 = Ok tt σ1
    ∧ σ1 !! m this = Some (OMatrix b).
Proof.
  intros Hthis Hlen Hi.
  assert (m this ≠ fresh (dom σ)) as Hne by by eapply fresh_ne.
  eexists _, _. split; [by apply Row_Ok|].
  assert (<[fresh (dom σ) := OVector {| size := size2 b; vdata := matrix_row b i |}]> σ
            !! m this = Some (OMatrix b)) as Hthis1.
  { by rewrite lookup_insert_ne. }
  split; [|done].
  eapply SetRow_same; [done| |done..].
  simpl. apply lookup_insert_eq.
Qed.

(** ** [Multiply (Vector)] *)

(** The call passes [N = vec->Size()] with [ldc = 1]: for a vector of two
    or more numbers the argument check of [cblas_dgemm] rejects the
    leading dimension of [C] (parameter 14). *)
Lemma Multiply_Vector_xerbla (σ : store R) this vec a x :
  σ !! m this = Some (OMatrix a) →
  σ !! v vec = Some (OVector x) →
  1 < size x →
  Multiply_Vector this vec σ = Err (Xerbla 14).
Proof.
  intros Hthis Hvec Hn. unfold Multiply_Vector, Vector_Size.
  erewrite bind_Ok; cycle 1.
  { erewrite bind_Ok by by apply load_vector_Ok. reflexivity. }
  erewrite bind_Ok by reflexivity.
  set (l := fresh (dom σ)). set (σ1 := <[l := _]> σ).
  assert (σ1 !! m this = Some (OMatrix a)) as Hthis1.
  { unfold σ1. rewrite lookup_insert_ne; [done|]. apply not_eq_sym. by eapply fresh_ne. }
  erewrite bind_Ok by by apply Height_Ok.
  erewrite bind_Ok by by apply Width_Ok.
  erewrite bind_Ok by by apply load_matrix_Ok.
  apply bind_Err. unfold cblas_dgemm, gemm_error_pos.
  rewrite (decide_True (P := 1 < _)) by lia.
  by rewrite decide_True by lia.
Qed.

End Facts.

(** ** The counting passes *)

Lemma fields_cons sep l : ∃ h t, fields sep l = h :: t.
Proof.
  destruct l as [|c l]; simpl; [by eexists _, _|].
  destruct (sep c); [by eexists _, _|].
  destruct (fields sep l); by eexists _, _.
Qed.

Lemma transitions_fields sep l : ∀ last_sep,
  transitions sep last_sep l
  + (if negb last_sep && nonempty (hd [] (fields sep l)) then 1 else 0)
  = length (List.filter nonempty (fields sep l)).
Proof.
  induction l as [|c l IH]; intros last_sep; simpl.
  - by destruct last_sep.
  - destruct (sep c) eqn:Hc; simpl.
    + rewrite andb_false_r, andb_false_r. simpl.
      rewrite <- (IH true). simpl. lia.
    + specialize (IH false). simpl in IH.
      destruct (fields_cons sep l) as (h & t & Hf).
      rewrite Hf in *. simpl in *.
      rewrite andb_true_r.
      destruct last_sep; simpl; destruct h; simpl in *; lia.
Qed.

Lemma transitions_count sep l :
  transitions sep true l = length (List.filter nonempty (fields sep l)).
Proof. rewrite <- (transitions_fields sep l true). simpl. lia. Qed.

(** ** Bytes as the loops see them *)

Lemma char_is_newline (c : ascii) :
  (to_char (int_of_byte c) =? 10)%Z = is_newline c.
Proof. by destruct c as [[] [] [] [] [] [] [] []]. Qed.

Lemma char_isspace (c : ascii) :
  isspace (to_char (int_of_byte c)) = is_space c.
Proof. by destruct c as [[] [] [] [] [] [] [] []]. Qed.

Lemma char_not_EOF (c : ascii) :
  c ≠ "255"%char → (to_char (int_of_byte c) =? EOF)%Z = false.
Proof. by destruct c as [[] [] [] [] [] [] [] []]. Qed.

Lemma fgetc_byte f c rest :
  drop (pos f) (contents f) = c :: rest →
  fgetc f = (int_of_byte c, {| contents := contents f; pos := S (pos f) |})
  ∧ drop (S (pos f)) (contents f) = rest.
Proof.
  intros Hd. unfold fgetc.
  assert (contents f !! pos f = Some c) as ->.
  { rewrite <- (Nat.add_0_r (pos f)), <- lookup_drop. by rewrite Hd. }
  split; [done|].
  replace (S (pos f)) with (pos f + 1) by lia.
  by rewrite <- drop_drop, Hd.
Qed.

Lemma fgetc_EOF f :
  drop (pos f) (contents f) = [] → fgetc f = (EOF, f).
Proof.
  intros Hd. unfold fgetc.
  assert (contents f !! pos f = None) as ->; [|done].
  rewrite <- (Nat.add_0_r (pos f)), <- lookup_drop. by rewrite Hd.
Qed.

(** ** [NumberOfRows] *)

Lemma NumberOfRows_loop_spec rest : ∀ fuel f lastChar count,
  drop (pos f) (contents f) = rest →
  Forall (λ c, c ≠ "255"%char) rest →
  length rest < fuel →
  ∃ f', NumberOfRows_loop fuel f lastChar count
        = Some (count + transitions is_newline (lastChar =? 10)%Z rest, f')
        ∧ contents f' = contents f.
Proof.
  induction rest as [|c rest IH]; intros fuel f lastChar count Hd Hff Hfuel;
    (destruct fuel as [|fuel]; [simpl in Hfuel; lia|]); simpl.
  - rewrite (fgetc_EOF f Hd). simpl.
    exists f. by rewrite Nat.add_0_r.
  - destruct (fgetc_byte f c rest Hd) as [-> Hd'].
    apply Forall_cons in Hff as [Hc Hff].
    rewrite (char_not_EOF c Hc), char_is_newline.
    destruct (IH fuel {| contents := contents f; pos := S (pos f) |}
                (to_char (int_of_byte c))
                (if (lastChar =? 10)%Z && negb (is_newline c)
                 then S count else count)) as (f' & -> & Hf');
      [done|done|simpl in Hfuel; lia|].
    exists f'. split; [|done].
    rewrite char_is_newline.
    do 2 f_equal. destruct ((lastChar =? 10)%Z && negb (is_newline c)); lia.
Qed.

(** The row pass returns, rewound, with the number of non-blank lines. *)
Lemma NumberOfRows_spec (bytes : list ascii) fuel :
  Forall (λ c, c ≠ "255"%char) bytes →
  length bytes < fuel →
  NumberOfRows fuel {| contents := bytes; pos := 0 |}
  = Some (length (non_blank_lines bytes), {| contents := bytes; pos := 0 |}).
Proof.
  intros Hff Hfuel. unfold NumberOfRows.
  destruct (NumberOfRows_loop_spec bytes fuel {| contents := bytes; pos := 0 |}
              10%Z 0) as (f' & -> & Hf'); [done..|].
  simpl. rewrite transitions_count. unfold fseek_start.
  by rewrite Hf'.
Qed.

(** ** [NumberOfColumns] *)

Lemma NumberOfColumns_loop_spec line : ∀ fuel f lastChar count rest,
  drop (pos f) (contents f) = line ++ "010"%char :: rest →
  Forall (λ c, is_newline c = false) line →
  length line < fuel →
  ∃ f', NumberOfColumns_loop fuel f lastChar count
        = Some (count + transitions is_space (isspace lastChar) line, f')
        ∧ contents f' = contents f.
Proof.
  induction line as [|c line IH]; intros fuel f lastChar count rest Hd Hnl Hfuel;
    (destruct fuel as [|fuel]; [simpl in Hfuel; lia|]); simpl.
  - destruct (fgetc_byte f _ rest Hd) as [-> _]. simpl.
    eexists. by rewrite Nat.add_0_r.
  - destruct (fgetc_byte f c _ Hd) as [-> Hd'].
    apply Forall_cons in Hnl as [Hc Hnl].
    rewrite char_is_newline, Hc, char_isspace.
    destruct (IH fuel {| contents := contents f; pos := S (pos f) |}
                (to_char (int_of_byte c))
                (if isspace lastChar && negb (is_space c)
                 then S count else count) rest) as (f' & -> & Hf');
      [done|done|simpl in Hfuel; lia|].
    exists f'. split; [|done].
    rewrite char_isspace.
    do 2 f_equal. destruct (isspace lastChar && negb (is_space c)); lia.
Qed.

Lemma first_line_app line rest :
  Forall (λ c, is_newline c = false) line →
  first_line (line ++ "010"%char :: rest) = line.
Proof.
  unfold first_line. induction line as [|c line IH]; intros Hnl; [done|].
  apply Forall_cons in Hnl as [Hc Hnl]. simpl. rewrite Hc.
  specialize (IH Hnl).
  destruct (fields_cons is_newline (line ++ "010"%char :: rest)) as (h & t & Hf).
  rewrite Hf in *. simpl in *. by rewrite IH.
Qed.

(** When the first line ends in a newline, the column pass returns,
    rewound, with the number of tokens on that line. *)
Lemma NumberOfColumns_spec (line rest : list ascii) fuel :
  Forall (λ c, is_newline c = false) line →
  length line < fuel →
  let bytes := line ++ "010"%char :: rest in
  first_line bytes = line
  ∧ NumberOfColumns fuel {| contents := bytes; pos := 0 |}
    = Some (length (tokens line), {| contents := bytes; pos := 0 |}).
Proof.
  intros Hnl Hfuel bytes. split; [by apply first_line_app|].
  unfold NumberOfColumns.
  destruct (NumberOfColumns_loop_spec line fuel {| contents := bytes; pos := 0 |}
              32%Z 0 rest) as (f' & -> & Hf'); [done..|].
  simpl. rewrite transitions_count. unfold fseek_start.
  by rewrite Hf'.
Qed.

(** ** A first line without a newline *)

Lemma NumberOfRows_loop_contents fuel : ∀ f lastChar count n f',
  NumberOfRows_loop fuel f lastChar count = Some (n, f') →
  contents f' = contents f.
Proof.
  induction fuel as [|fuel IH]; intros f lastChar count n f'; simpl; [done|].
  unfold fgetc. destruct (contents f !! pos f) as [c|]; simpl.
  - destruct (to_char (int_of_byte c) =? EOF)%Z.
    + by intros [= _ <-].
    + intros H. by apply IH in H.
  - by intros [= _ <-].
Qed.

(** The row pass always comes back: its loop ends at the end of the file
    (or at a byte that reads as [EOF]). *)
Lemma NumberOfRows_returns rest : ∀ fuel f lastChar count,
  drop (pos f) (contents f) = rest →
  length rest < fuel →
  is_Some (NumberOfRows_loop fuel f lastChar count).
Proof.
  induction rest as [|c rest IH]; intros fuel f lastChar count Hd Hfuel;
    (destruct fuel as [|fuel]; [simpl in Hfuel; lia|]); simpl.
  - by rewrite (fgetc_EOF f Hd).
  - destruct (fgetc_byte f c rest Hd) as [-> Hd'].
    destruct (to_char (int_of_byte c) =? EOF)%Z; [done|].
    apply IH; [done|simpl in Hfuel; lia].
Qed.

Lemma NumberOfColumns_loop_no_newline fuel : ∀ f lastChar count,
  Forall (λ c, is_newline c = false) (drop (pos f) (contents f)) →
  NumberOfColumns_loop fuel f lastChar count = None.
Proof.
  induction fuel as [|fuel IH]; intros f lastChar count Hnl; simpl; [done|].
  destruct (drop (pos f) (contents f)) as [|c rest] eqn:Hd.
  - rewrite (fgetc_EOF f Hd). simpl. apply IH. by rewrite Hd.
  - destruct (fgetc_byte f c rest Hd) as [-> Hd'].
    apply Forall_cons in Hnl as [Hc Hnl].
    rewrite char_is_newline, Hc. apply IH. simpl. by rewrite Hd'.
Qed.

Lemma not_elem_newline (bytes : list ascii) :
  "010"%char ∉ bytes → Forall (λ c, is_newline c = false) bytes.
Proof.
  intros Hnot. apply Forall_forall. intros c Hc.
  apply Ascii.eqb_neq. intros ->. done.
Qed.

Lemma NumberOfColumns_no_newline (bytes : list ascii) fuel :
  "010"%char ∉ bytes →
  NumberOfColumns fuel {| contents := bytes; pos := 0 |} = None.
Proof.
  intros Hnot. unfold NumberOfColumns.
  rewrite NumberOfColumns_loop_no_newline; [done|].
  simpl. by apply not_elem_newline.
Qed.

Lemma Matrix_file_no_newline {R} {heap : Uninit R} {scanner : Scanner R}
    (bytes : list ascii) fuel (σ : store R) :
  "010"%char ∉ bytes →
  Matrix_file (Some bytes) fuel σ = None.
Proof.
  intros Hnot. unfold Matrix_file, NumberOfRows.
  destruct (NumberOfRows_loop fuel _ _ _) as [[rows f]|] eqn:Hrows; [|done].
  apply NumberOfRows_loop_contents in Hrows. simpl in Hrows.
  unfold fseek_start. rewrite Hrows.
  by rewrite NumberOfColumns_no_newline.
Qed.

(** C10.  When the file holds no newline (its first line is not
    terminated, or the file is empty), the row pass returns but the column
    pass is still running after any number of rounds, and so the
    constructor never returns. *)
Theorem NumberOfColumns_never_returns (bytes : list ascii) :
  "010"%char ∉ bytes →
  (∃ rows, NumberOfRows (S (length bytes)) {| contents := bytes; pos := 0 |}
           = Some (rows, {| contents := bytes; pos := 0 |}))
  ∧ ∀ fuel,
      NumberOfColumns fuel {| contents := bytes; pos := 0 |} = None
      ∧ ∀ R (heap : Uninit R) (scanner : Scanner R) (σ : store R),
          Matrix_file (Some bytes) fuel σ = None.
Proof.
  intros Hnot. split.
  - unfold NumberOfRows.
    destruct (NumberOfRows_returns bytes (S (length bytes))
                {| contents := bytes; pos := 0 |} 10%Z 0) as [[rows f] Hrun];
      [done|lia|].
    rewrite Hrun. exists rows.
    apply NumberOfRows_loop_contents in Hrun. simpl in Hrun.
    unfold fseek_start. by rewrite Hrun.
  - intros fuel. split; [by apply NumberOfColumns_no_newline|].
    intros. by apply Matrix_file_no_newline.
Qed.


(** ** The constructor on a file whose first line ends in a newline *)

Section ScanFacts.

Context {R : Type} {heap : Uninit R} {scanner : Scanner R}.

Lemma length_scan_all n : ∀ rest (xs : list R) rest',
  scan_all n rest = Some (xs, rest') → length xs = n.
Proof.
  induction n as [|n IH]; intros rest xs rest'; simpl.
  - by intros [= <- _].
  - destruct (scan_double rest) as [[x r1]|]; [|done].
    destruct (scan_all n r1) as [[ys r2]|] eqn:Hn; [|done].
    intros [= <- _]. simpl. f_equal. by eapply IH.
Qed.

(** The scan stores the [k]-th number read in cell [i + k]. *)
Lemma raw_fscanf_scan_all n : ∀ i rest (d xs : list R) rest',
  scan_all n rest = Some (xs, rest') →
  i + n ≤ length d →
  raw_fscanf n i rest d = Some (take i d ++ xs ++ drop (i + n) d, rest').
Proof.
  induction n as [|n IH]; intros i rest d xs rest'; simpl.
  - intros [= <- <-] _. simpl. by rewrite Nat.add_0_r, take_drop.
  - destruct (scan_double rest) as [[x r1]|]; [|done].
    destruct (scan_all n r1) as [[ys r2]|] eqn:Hn; [|done].
    intros [= <- <-] Hlen.
    rewrite (IH (S i) r1 (<[i := x]> d) ys r2 Hn) by (rewrite length_insert; lia).
    do 2 f_equal.
    destruct (lookup_lt_is_Some_2 d i) as [y Hy]; [lia|].
    rewrite take_insert_lt by lia.
    rewrite (take_S_r d i y Hy).
    rewrite insert_app_r_alt by (rewrite length_take; lia).
    rewrite length_take. replace (i - i `min` length d) with 0 by lia.
    simpl. rewrite <- app_assoc. simpl. do 3 f_equal.
    rewrite drop_insert_lt by lia. f_equal. lia.
Qed.

(** On a file whose first line ends in a newline, that holds no byte 255
    and at least [rows * cols] numbers, the constructor returns a matrix
    with one row per non-blank line and one column per token of the first
    line, holding the numbers in the order they are read. *)
Lemma Matrix_file_Ok (bytes line more : list ascii) (xs : list R) rest
    (σ : store R) :
  bytes = line ++ "010"%char :: more →
  Forall (λ c, is_newline c = false) line →
  Forall (λ c, c ≠ "255"%char) bytes →
  scan_all (length (non_blank_lines bytes) * length (tokens line)) bytes
  = Some (xs, rest) →
  first_line bytes = line
  ∧ Matrix_file (Some bytes) (S (length bytes)) σ
    = Some (Ok {| m := fresh (dom σ) |}
               (<[fresh (dom σ) :=
                    OMatrix {| size1 := length (non_blank_lines bytes);
                               size2 := length (tokens line);
                               mdata := xs |}]> σ)).
Proof.
  intros Hbytes Hnl Hff Hscan.
  destruct (NumberOfColumns_spec line more (S (length bytes)) Hnl) as [Hfirst Hcols].
  { rewrite Hbytes, length_app. simpl. lia. }
  rewrite <- Hbytes in Hfirst, Hcols. split; [done|].
  unfold Matrix_file.
  rewrite NumberOfRows_spec by (done || lia).
  rewrite Hcols. f_equal.
  erewrite bind_Ok by reflexivity.
  erewrite (bind_Ok (gsl_matrix_fscanf _ _)); cycle 1.
  { unfold gsl_matrix_fscanf.
    erewrite bind_Ok by (apply load_matrix_Ok; apply lookup_insert_eq).
    simpl.
    rewrite (raw_fscanf_scan_all _ 0 bytes _ xs rest Hscan)
      by (rewrite length_junk; lia).
    erewrite bind_Ok by (apply store_buffer_Ok; apply lookup_insert_eq).
    reflexivity. }
  rewrite ret_Ok. simpl. rewrite insert_insert_eq.
  rewrite drop_ge by (rewrite length_junk; lia).
  by rewrite app_nil_r.
Qed.

End ScanFacts.
(** ** Concrete runs *)

Example Multiply_2x2_1x2 :
  ∃ σ', Z_Multiply M1 M2 (two_matrices A22 B12) = Ok {| m := 4%positive |} σ'
        ∧ σ' !! 4%positive
          = Some (OMatrix {| size1 := 2; size2 := 1; mdata := [17; 39]%Z |}).
Proof. eexists. split; vm_compute; reflexivity. Qed.

Lemma Multiply_entry_witness :
  ∃ r σ',
    Z_Multiply M1 M2 (two_matrices A22 B12) = Ok r σ'
    ∧ Height r σ' = Ok 2 σ'
    ∧ Width r σ' = Ok 1 σ'
    ∧ ∀ i j, i < 2 → j < 1 →
        Get r i j σ'
        = Ok (dot (arith := Z_arith) (matrix_row A22 i) (matrix_row B12 j)) σ'.
Proof.
  apply (Multiply_entry_is_dot_of_rows (arith := Z_arith) (heap := zeros)
           Z.add_0_l Z.mul_1_l (two_matrices A22 B12) M1 M2 A22 B12).
  - reflexivity.
  - reflexivity.
  - unfold valid; simpl; lia.
  - unfold valid; simpl; lia.
  - reflexivity.
Defined.

(** C7 fails as stated: [A] is [1 × 1], [B] is [1 × 2], the widths
    differ, and [Multiply (A, B)] returns the [1 × 1] matrix [2 * 5]. *)
Lemma Multiply_wider_other_returns :
  size2 A11 ≠ size2 B12
  ∧ (∀ e, Z_Multiply M1 M2 (two_matrices A11 B12) ≠ Err e)
  ∧ ∃ r σ', Z_Multiply M1 M2 (two_matrices A11 B12) = Ok r σ'
            ∧ Height r σ' = Ok 1 σ'
            ∧ Width r σ' = Ok 1 σ'
            ∧ Get r 0 0 σ' = Ok 10%Z σ'.
Proof.
  split; [simpl; lia|]. split.
  - intros e. vm_compute. discriminate.
  - eexists _, _. repeat split; vm_compute; reflexivity.
Qed.

(** The other way round [B] is the narrower one and the call stops. *)
Example Multiply_narrower_other_stops :
  Z_Multiply M2 M1 (two_matrices A11 B12) = Err (Xerbla 11).
Proof. vm_compute. reflexivity. Qed.

Lemma Multiply_widths_differ_witness :
  (size2 B12 < size2 A11
   ∧ Z_Multiply M1 M2 (two_matrices A11 B12) = Err (Xerbla 11))
  ∨ (size2 A11 < size2 B12 ∧
     ∃ r σ',
       Z_Multiply M1 M2 (two_matrices A11 B12) = Ok r σ'
       ∧ Height r σ' = Ok (size1 A11) σ'
       ∧ Width r σ' = Ok (size1 B12) σ'
       ∧ ∀ i j, i < size1 A11 → j < size1 B12 →
           Get r i j σ'
           = Ok (dot (arith := Z_arith) (matrix_row A11 i)
                   (take (size2 A11) (matrix_row B12 j))) σ').
Proof.
  apply (Multiply_widths_differ (arith := Z_arith) (heap := zeros)
           Z.add_0_l Z.mul_1_l (two_matrices A11 B12) M1 M2 A11 B12).
  - reflexivity.
  - reflexivity.
  - unfold valid; simpl; lia.
  - unfold valid; simpl; lia.
  - simpl; lia.
Defined.

Lemma SetRow_of_Row_witness :
  ∃ vec σ1,
    Z_Row M1 1 (one_matrix A22) = Ok vec σ1
    ∧ SetRow M1 1 vec σ1 = Ok tt σ1
    ∧ σ1 !! m M1 = Some (OMatrix A22).
Proof.
  apply (SetRow_of_Row_unchanged (heap := zeros) (one_matrix A22) M1 A22 1).
  - reflexivity.
  - reflexivity.
  - simpl; lia.
Defined.

(** C9 fails as stated: on the zero matrix, with the fresh blocks holding
    zeros as well (so that the block [Invert] decomposes holds the numbers
    of the receiver), GSL finds the factor singular and [Invert] returns
    no matrix. *)
Lemma Invert_of_zero_matrix_stops :
  size1 O22 = size2 O22
  ∧ Z_Invert M1 (one_matrix O22) = Err (GslError "matrix is singular")
  ∧ ∀ r σ', Z_Invert M1 (one_matrix O22) ≠ Ok r σ'.
Proof.
  split; [reflexivity|]. split.
  - vm_compute. reflexivity.
  - intros r σ'. vm_compute. discriminate.
Qed.

(** With the fresh blocks holding the identity, [Invert] of the identity
    goes through. *)
Example Invert_of_identity_returns :
  ∃ r σ',
    Invert (heap := identity_blocks) (kernel := keep) M1 (one_matrix I22)
    = Ok r σ'
    ∧ σ' !! m r = Some (OMatrix I22).
Proof. eexists _, _. split; vm_compute; reflexivity. Qed.

Lemma Invert_new_matrix_witness :
  (singular (kernel := keep)
     (Invert_factor (heap := identity_blocks) (kernel := keep)
        (dom (one_matrix I22)) (size2 I22)) = true
   ∧ Invert (heap := identity_blocks) (kernel := keep) M1 (one_matrix I22)
     = Err (GslError "matrix is singular"))
  ∨ (singular (kernel := keep)
       (Invert_factor (heap := identity_blocks) (kernel := keep)
          (dom (one_matrix I22)) (size2 I22)) = false
     ∧ ∃ r σ' cells,
         Invert (heap := identity_blocks) (kernel := keep) M1 (one_matrix I22)
         = Ok r σ'
         ∧ (m r ∉ dom (one_matrix I22))
         ∧ σ' !! m r = Some (OMatrix {| size1 := size2 I22; size2 := size2 I22;
                                        mdata := cells |})
         ∧ length cells = size2 I22 * size2 I22
         ∧ σ' !! m M1 = Some (OMatrix I22)
         ∧ ∀ l, l ∈ dom (one_matrix I22) → σ' !! l = one_matrix I22 !! l).
Proof.
  apply (Invert_new_matrix_receiver_unchanged (heap := identity_blocks)
           (kernel := keep) (one_matrix I22) M1 I22).
  - reflexivity.
  - reflexivity.
  - reflexivity.
Defined.

(** C2 at a matrix that is not square: the clone of the [1 × 2] matrix
    [1 2] has height 2 and width 1, while the receiver still has height 1
    and width 2. *)
Theorem Clone_of_1x2_is_2x1 (heap : Uninit Z) :
  ∃ r σ',
    Clone M1 (one_matrix A12) = Ok r σ'
    ∧ Height M1 σ' = Ok 1 σ'
    ∧ Width M1 σ' = Ok 2 σ'
    ∧ Height r σ' = Ok 2 σ'
    ∧ Width r σ' = Ok 1 σ'.
Proof.
  eexists _, _. split.
  - by apply (Clone_Ok (one_matrix A12) M1 A12).
  - repeat split; vm_compute; reflexivity.
Qed.

(** On a square matrix the clone has the dimensions and the numbers of
    the receiver, in a block of its own. *)
Example Clone_2x2 (heap : Uninit Z) :
  ∃ r σ',
    Clone M1 (one_matrix A22) = Ok r σ'
    ∧ m r ≠ m M1
    ∧ σ' !! m r = Some (OMatrix A22)
    ∧ σ' !! m M1 = Some (OMatrix A22).
Proof.
  eexists _, _. split.
  - by apply (Clone_Ok (one_matrix A22) M1 A22).
  - repeat split; vm_compute; (reflexivity || discriminate).
Qed.

(** C3: whatever the LU routines compute and whatever lies in fresh
    blocks, [Invert] of [2 0; 0 2] and [Invert] of the identity end the
    same way: both stop in GSL's error handler with [matrix is singular],
    or both return the same matrix. *)
Theorem Invert_same_for_two_receivers (heap : Uninit Z) (kernel : LU Z) :
  (Invert M1 (one_matrix D22) = Err (GslError "matrix is singular")
   ∧ Invert M1 (one_matrix I22) = Err (GslError "matrix is singular"))
  ∨ ∃ r cells σa σb,
      Invert M1 (one_matrix D22) = Ok r σa
      ∧ Invert M1 (one_matrix I22) = Ok r σb
      ∧ σa !! m r = Some (OMatrix {| size1 := 2; size2 := 2; mdata := cells |})
      ∧ σb !! m r = Some (OMatrix {| size1 := 2; size2 := 2; mdata := cells |}).
Proof.
  pose proof (Invert_run (one_matrix D22) M1 D22 eq_refl eq_refl eq_refl) as Ha.
  pose proof (Invert_run (one_matrix I22) M1 I22 eq_refl eq_refl eq_refl) as Hb.
  cbv zeta in Ha, Hb.
  assert (dom (one_matrix D22) = {[1%positive]}) as HDa by apply dom_singleton_L.
  assert (dom (one_matrix I22) = {[1%positive]}) as HDb by apply dom_singleton_L.
  rewrite HDa in Ha. rewrite HDb in Hb.
  change (size2 D22) with 2 in Ha. change (size2 I22) with 2 in Hb.
  destruct (singular (Invert_factor {[1%positive]} 2)); [by left|].
  right. eexists _, _, _, _.
  split; [exact Ha|]. split; [exact Hb|].
  split; apply lookup_insert_eq.
Qed.

(** C4 at a [2 × 2] matrix and a vector of length 2: the call stops in
    the argument check of [cblas_dgemm] and no vector is returned. *)
Theorem Multiply_Vector_2x2_stops :
  Z_Multiply_Vector M1 V2 (matrix_and_vector A22 [1; 1]%Z) = Err (Xerbla 14).
Proof. vm_compute. reflexivity. Qed.

(** The one shape on which [Multiply (Vector)] goes through. *)
Example Multiply_Vector_1x1 :
  ∃ r σ', Z_Multiply_Vector M1 V2 (matrix_and_vector A11 [5]%Z) = Ok r σ'
          ∧ σ' !! v r = Some (OVector {| size := 1; vdata := [10]%Z |}).
Proof. eexists _, _. split; vm_compute; reflexivity. Qed.

(** A column of height 2: the product needs two cells in a result block
    that was allocated with one.  The second store is an access outside
    the block, which the model marks with [Fault]; the program itself does
    not stop there. *)
Example Multiply_Vector_2x1 :
  Z_Multiply_Vector M1 V2
    (matrix_and_vector {| size1 := 2; size2 := 1; mdata := [3; 4]%Z |} [5]%Z)
  = Err Fault.
Proof. vm_compute. reflexivity. Qed.

(** ** Concrete files *)

Example two_rows_counts :
  NumberOfRows 100 {| contents := two_rows; pos := 0 |}
    = Some (2, {| contents := two_rows; pos := 0 |})
  ∧ NumberOfColumns 100 {| contents := two_rows; pos := 0 |}
    = Some (3, {| contents := two_rows; pos := 0 |})
  ∧ length (non_blank_lines two_rows) = 2
  ∧ length (tokens (first_line two_rows)) = 3.
Proof. repeat split; vm_compute; reflexivity. Qed.

(** The parsing example: a [2 × 3] matrix holding 1 to 6 by rows. *)
Example Matrix_file_two_rows :
  ∃ r σ',
    Z_Matrix_file (Some two_rows) 100 ∅ = Some (Ok r σ')
    ∧ σ' !! m r = Some (OMatrix {| size1 := 2; size2 := 3;
                                   mdata := [1; 2; 3; 4; 5; 6]%Z |})
    ∧ Get r 0 0 σ' = Ok 1%Z σ' ∧ Get r 0 1 σ' = Ok 2%Z σ'
    ∧ Get r 0 2 σ' = Ok 3%Z σ' ∧ Get r 1 0 σ' = Ok 4%Z σ'
    ∧ Get r 1 1 σ' = Ok 5%Z σ' ∧ Get r 1 2 σ' = Ok 6%Z σ'.
Proof. eexists _, _. repeat split; vm_compute; reflexivity. Qed.

Example Matrix_file_missing :
  Z_Matrix_file None 100 ∅ = Some (Err (Thrown "File read error.")).
Proof. reflexivity. Qed.

(** An empty file: no row, and the column pass does not come back. *)
Example empty_file_never_returns fuel :
  NumberOfRows 1 {| contents := []; pos := 0 |}
    = Some (0, {| contents := []; pos := 0 |})
  ∧ NumberOfColumns fuel {| contents := []; pos := 0 |} = None.
Proof.
  split; [reflexivity|].
  apply NumberOfColumns_no_newline. apply not_elem_of_nil.
Qed.

Lemma no_newline_in_one_row : "010"%char ∉ one_row_unterminated.
Proof.
  unfold one_row_unterminated, text. simpl. intros H.
  repeat (apply elem_of_cons in H as [H|H]; [discriminate|]).
  by apply elem_of_nil in H.
Qed.

Lemma NumberOfColumns_never_returns_witness :
  (∃ rows, NumberOfRows (S (length one_row_unterminated))
             {| contents := one_row_unterminated; pos := 0 |}
           = Some (rows, {| contents := one_row_unterminated; pos := 0 |}))
  ∧ ∀ fuel,
      NumberOfColumns fuel {| contents := one_row_unterminated; pos := 0 |} = None
      ∧ ∀ R (heap : Uninit R) (scanner : Scanner R) (σ : store R),
          Matrix_file (Some one_row_unterminated) fuel σ = None.
Proof.
  apply (NumberOfColumns_never_returns one_row_unterminated).
  apply no_newline_in_one_row.
Defined.

(** C6 at a file with the single row [1 2 3] and no newline after it: one
    non-blank line with three tokens, and the constructor has not returned
    after any number of rounds. *)
Theorem Matrix_file_one_row_unterminated :
  length (non_blank_lines one_row_unterminated) = 1
  ∧ length (tokens (first_line one_row_unterminated)) = 3
  ∧ ∀ fuel σ, Z_Matrix_file (Some one_row_unterminated) fuel σ = None.
Proof.
  split; [reflexivity|]. split; [reflexivity|].
  intros fuel σ. apply Matrix_file_no_newline, no_newline_in_one_row.
Qed.

(** * Further statements: the other methods *)

(** * Further statements: the other methods *)

Section FactsRest.

Context {R : Type} {arith : Arith R} {heap : Uninit R} {stats : Stats R}.

(** ** Loops that write one block *)

Lemma buffer_with_buffer (o : object R) d :
  (∀ p, o ≠ OPermutation p) → buffer (with_buffer o d) = d.
Proof. intros Hp. destruct o; simpl; [done|done|]. by destruct (Hp p). Qed.

Lemma with_buffer_twice (o : object R) d d' :
  with_buffer (with_buffer o d) d' = with_buffer o d'.
Proof. by destruct o. Qed.

Lemma with_buffer_same (o : object R) : with_buffer o (buffer o) = o.
Proof. by destruct o as [[]|[]|]. Qed.

Lemma poke_Ok (σ : store R) l o k x :
  σ !! l = Some o → k < length (buffer o) →
  poke l k x σ = Ok tt (<[l := with_buffer o (<[k := x]> (buffer o))]> σ).
Proof.
  intros Hl Hk. unfold poke.
  erewrite bind_Ok by by apply load_buffer_Ok.
  rewrite decide_True by done. by apply store_buffer_Ok.
Qed.

Lemma poke_Fault (σ : store R) l o k x :
  σ !! l = Some o → length (buffer o) ≤ k → poke l k x σ = Err Fault.
Proof.
  intros Hl Hk. unfold poke.
  erewrite bind_Ok by by apply load_buffer_Ok.
  by rewrite decide_False by lia.
Qed.

Lemma length_foldl_writes (f : nat → list R → list R) (l : list nat) : ∀ d,
  (∀ i d, length (f i d) = length d) →
  length (foldl (λ d i, f i d) d l) = length d.
Proof.
  induction l as [|i l IH]; intros d Hf; simpl; [done|].
  by rewrite IH, Hf.
Qed.

(** A loop whose every round turns the buffer [d] of the block at [l] into
    [f i d] and leaves the rest of the store alone amounts to folding [f]
    over the buffer. *)
Lemma for_writes (l : loc) (o : object R) (σ : store R)
    (body : nat → Err.M (store R) unit) (f : nat → list R → list R) n d0 :
  (∀ i d, length (f i d) = length d) →
  (∀ i d, i < n → length d = length d0 →
     body i (<[l := with_buffer o d]> σ) = Ok tt (<[l := with_buffer o (f i d)]> σ)) →
  Err.for_ (seq 0 n) body (<[l := with_buffer o d0]> σ)
  = Ok tt (<[l := with_buffer o (foldl (λ d i, f i d) d0 (seq 0 n))]> σ).
Proof.
  intros Hf Hbody.
  destruct (for_seq_inv
    (λ k s, s = <[l := with_buffer o (foldl (λ d i, f i d) d0 (seq 0 k))]> σ)
    body n (<[l := with_buffer o d0]> σ)) as (s' & Hrun & ->); [done| |done].
  intros i s Hi ->. eexists. split.
  - apply Hbody; [done|]. by apply length_foldl_writes.
  - replace (i + 1) with (S i) by lia. by rewrite seq_S, foldl_app.
Qed.

(** The same, started from a store that already holds the block. *)
Lemma for_writes_at (l : loc) (o : object R) (σ : store R)
    (body : nat → Err.M (store R) unit) (f : nat → list R → list R) n :
  σ !! l = Some o →
  (∀ i d, length (f i d) = length d) →
  (∀ i d, i < n → length d = length (buffer o) →
     body i (<[l := with_buffer o d]> σ) = Ok tt (<[l := with_buffer o (f i d)]> σ)) →
  Err.for_ (seq 0 n) body σ
  = Ok tt (<[l := with_buffer o (foldl (λ d i, f i d) (buffer o) (seq 0 n))]> σ).
Proof.
  intros Hl Hf Hbody.
  rewrite <- (for_writes l o σ body f n (buffer o) Hf Hbody).
  by rewrite with_buffer_same, insert_id.
Qed.

(** One pass of writes to cells at distinct places [pos i], each cell
    replaced by a function of what it held. *)
Lemma write_pass (pos : nat → nat) (g : nat → R → R) n : ∀ (d : list R),
  (∀ i i', i < n → i' < n → pos i = pos i' → i = i') →
  let d' := foldl (λ d i, <[pos i := g i (at_ d (pos i))]> d) d (seq 0 n) in
  length d' = length d
  ∧ (∀ i, i < n → d' !! pos i = g i <$> d !! pos i)
  ∧ (∀ p, (∀ i, i < n → p ≠ pos i) → d' !! p = d !! p).
Proof.
  induction n as [|n IH]; intros d Hinj; cbv zeta.
  - split; [done|]. split; [intros; lia|done].
  - rewrite seq_S, foldl_app. simpl.
    destruct (IH d) as (Hlen & Hget & Hrest).
    { intros i i' Hi Hi'. apply Hinj; lia. }
    set (d1 := foldl _ d (seq 0 n)) in *.
    assert (d1 !! pos n = d !! pos n) as Hn.
    { apply Hrest. intros i Hi Heq. apply Hinj in Heq; lia. }
    split; [by rewrite length_insert|]. split.
    + intros i Hi. destruct (decide (i = n)) as [->|Hne].
      * destruct (decide (pos n < length d)) as [Hin|Hout].
        -- rewrite list_lookup_insert_eq by lia.
           destruct (lookup_lt_is_Some_2 d (pos n)) as [y Hy]; [done|].
           rewrite Hy in Hn. by rewrite (at_lookup _ _ _ Hn), Hy.
        -- rewrite list_insert_ge by lia.
           by rewrite Hn, (lookup_ge_None_2 d) by lia.
      * rewrite list_lookup_insert_ne.
        -- apply Hget. lia.
        -- intros Heq. apply Hinj in Heq; lia.
    + intros p Hp. rewrite list_lookup_insert_ne.
      * apply Hrest. intros i Hi. apply Hp. lia.
      * apply not_eq_sym, Hp. lia.
Qed.

(** The two nested loops over the rows and columns of a block of width
    [w], cell [(i, j)] at offset [i * w + j]. *)
Lemma cells_pass (g : nat → nat → R → R) w : ∀ h (d : list R),
  let d' := foldl (λ d i,
              foldl (λ d j, <[i * w + j := g i j (at_ d (i * w + j))]> d)
                    d (seq 0 w)) d (seq 0 h) in
  length d' = length d
  ∧ (∀ p, h * w ≤ p → d' !! p = d !! p)
  ∧ ∀ i j, i < h → j < w → d' !! (i * w + j) = g i j <$> d !! (i * w + j).
Proof.
  induction h as [|h IH]; intros d; cbv zeta.
  - split; [done|]. split; [done|]. intros; lia.
  - rewrite seq_S, foldl_app. simpl.
    destruct (IH d) as (Hlen & Hrest & Hget).
    set (d1 := foldl _ d (seq 0 h)) in *.
    destruct (write_pass (λ j, h * w + j) (g h) w d1) as (Hlen2 & Hget2 & Hrest2).
    { intros; lia. }
    split; [by rewrite Hlen2|]. split.
    + intros p Hp. rewrite Hrest2 by (intros; lia). apply Hrest. lia.
    + intros i j Hi Hj. destruct (decide (i = h)) as [->|Hne].
      * rewrite Hget2 by done. by rewrite Hrest by lia.
      * assert (i * w + j < h * w) by nia.
        rewrite Hrest2 by (intros; lia). apply Hget; lia.
Qed.

(** A loop that writes one cell [i * w + c i] in each of the first [h]
    rows. *)
Lemma cell_per_row_pass (c : nat → nat) (g : nat → R → R) w h (d : list R) :
  (∀ i, i < h → c i < w) →
  let d' := foldl (λ d i, <[i * w + c i := g i (at_ d (i * w + c i))]> d)
                  d (seq 0 h) in
  length d' = length d
  ∧ (∀ p, h * w ≤ p → d' !! p = d !! p)
  ∧ ∀ i j, i < h → j < w →
      d' !! (i * w + j)
      = if decide (j = c i) then g i <$> d !! (i * w + j) else d !! (i * w + j).
Proof.
  intros Hc.
  destruct (write_pass (λ i, i * w + c i) g h d) as (Hlen & Hget & Hrest).
  { intros i i' Hi Hi' Heq. pose proof (Hc i Hi). pose proof (Hc i' Hi'). nia. }
  split; [done|]. split.
  - intros p Hp. apply Hrest. intros i Hi. pose proof (Hc i Hi). nia.
  - intros i j Hi Hj. case_decide as Hj'.
    + subst j. by apply Hget.
    + apply Hrest. intros i' Hi'. pose proof (Hc i' Hi').
      destruct (decide (i = i')) as [->|Hne]; [lia|].
      destruct (decide (i < i')); nia.
Qed.

(** A loop that only reads: every round succeeds and leaves the store as
    it is. *)
Lemma fold_reads {A B} (l : list A) (body : B → A → Err.M (store R) B)
    (σ : store R) : ∀ acc,
  (∀ acc x, x ∈ l → ∃ acc', body acc x σ = Ok acc' σ) →
  ∃ acc', fold_ l acc body σ = Ok acc' σ.
Proof.
  induction l as [|x l IH]; intros acc Hbody; simpl.
  - by eexists.
  - destruct (Hbody acc x) as [acc1 H1]; [by left|].
    erewrite bind_Ok by exact H1.
    apply IH. intros acc2 y Hy. apply Hbody. by right.
Qed.

(** ** Reading and writing one cell *)

Lemma Get_inv (σ σ' : store R) r i j y :
  Get r i j σ = Ok y σ' →
  ∃ b, σ !! m r = Some (OMatrix b) ∧ i < size1 b ∧ j < size2 b
       ∧ mdata b !! (i * size2 b + j) = Some y ∧ σ' = σ.
Proof.
  unfold Get, gsl_matrix_get, load_matrix, peek, mbind, err_bind, Err.bind.
  destruct (σ !! m r) as [[b| |]|] eqn:Hr; try done.
  repeat case_decide; try done.
  rewrite Hr. simpl.
  destruct (mdata b !! (i * size2 b + j)) as [x|] eqn:Hx; [|done].
  intros [= <- <-]. exists b. repeat split; (done || lia).
Qed.

Lemma cell_index_ne w i j i' j' :
  j < w → j' < w → (i, j) ≠ (i', j') → i * w + j ≠ i' * w + j'.
Proof.
  intros Hj Hj' Hne Heq.
  destruct (decide (i = i')) as [->|Hi].
  - apply Hne. f_equal. lia.
  - destruct (decide (i < i')); nia.
Qed.

Lemma Set_Ok (σ : store R) this b row col x :
  σ !! m this = Some (OMatrix b) →
  shaped b → row < size1 b → col < size2 b →
  Set_ this row col x σ
  = Ok tt (<[m this := OMatrix {| size1 := size1 b; size2 := size2 b;
                                  mdata := <[row * size2 b + col := x]> (mdata b) |}]> σ).
Proof.
  intros Hthis Hshape Hrow Hcol. unfold Set_, gsl_matrix_set.
  erewrite bind_Ok by by apply load_matrix_Ok.
  rewrite !decide_False by lia.
  rewrite decide_True by (rewrite Hshape; nia).
  by erewrite store_buffer_Ok by done.
Qed.

Lemma Set_then_Get_aux (σ : store R) this b row col x :
  σ !! m this = Some (OMatrix b) →
  shaped b → row < size1 b → col < size2 b →
  ∃ σ',
    Set_ this row col x σ = Ok tt σ'
    ∧ Get this row col σ' = Ok x σ'
    ∧ Height this σ' = Ok (size1 b) σ'
    ∧ Width this σ' = Ok (size2 b) σ'
    ∧ (∀ i j y, (i, j) ≠ (row, col) →
         Get this i j σ = Ok y σ → Get this i j σ' = Ok y σ')
    ∧ (∀ l, l ≠ m this → σ' !! l = σ !! l).
Proof.
  intros Hthis Hshape Hrow Hcol.
  eexists. split; [by apply Set_Ok|].
  set (b' := {| size1 := size1 b; size2 := size2 b;
                mdata := <[row * size2 b + col := x]> (mdata b) |}).
  assert (<[m this := OMatrix b']> σ !! m this = Some (OMatrix b')) as Hb'
    by apply lookup_insert_eq.
  split; [|split; [|split; [|split]]].
  - eapply Get_Ok; [done|done|done|]. simpl.
    apply list_lookup_insert_eq. rewrite Hshape. nia.
  - by erewrite Height_Ok by done.
  - by erewrite Width_Ok by done.
  - intros i j y Hne Hget.
    apply Get_inv in Hget as (b0 & Hb0 & Hi & Hj & Hy & _).
    rewrite Hthis in Hb0. injection Hb0 as <-.
    eapply Get_Ok; [done|done|done|]. simpl.
    rewrite list_lookup_insert_ne; [done|].
    apply not_eq_sym. by apply cell_index_ne.
  - intros l Hl. by rewrite lookup_insert_ne.
Qed.

(** X1.  After [Set (row, col, x)] with indices in range, [Get (row, col)]
    is [x], every other cell reads as before, the dimensions are the same
    and no other block has changed. *)
Theorem Set_then_Get (σ : store R) this b row col x :
  σ !! m this = Some (OMatrix b) →
  shaped b → row < size1 b → col < size2 b →
  ∃ σ',
    Set_ this row col x σ = Ok tt σ'
    ∧ Get this row col σ' = Ok x σ'
    ∧ Height this σ' = Ok (size1 b) σ'
    ∧ Width this σ' = Ok (size2 b) σ'
    ∧ (∀ i j y, (i, j) ≠ (row, col) →
         Get this i j σ = Ok y σ → Get this i j σ' = Ok y σ')
    ∧ (∀ l, l ≠ m this → σ' !! l = σ !! l).
Proof. apply Set_then_Get_aux. Qed.

(** ** The constructor from a buffer *)

(** X2.  [Matrix (data, height, width)] returns a matrix in a block that was
    not in use, of the given dimensions, whose cell [(i, j)] holds
    [data[i * width + j]]; every block that was live is unchanged. *)
Theorem Matrix_data_copies (σ : store R) data o height width :
  σ !! data = Some o →
  height * width ≤ length (buffer o) →
  ∃ r σ',
    Matrix_data data height width σ = Ok r σ'
    ∧ (m r ∉ dom σ)
    ∧ Height r σ' = Ok height σ'
    ∧ Width r σ' = Ok width σ'
    ∧ (∀ i j, i < height → j < width →
         ∃ x, buffer o !! (i * width + j) = Some x ∧ Get r i j σ' = Ok x σ')
    ∧ (∀ l, l ∈ dom σ → σ' !! l = σ !! l).
Proof.
  intros Hdata Hlen.
  eexists _, _. split; [by eapply Matrix_data_Ok|].
  set (l := fresh (dom σ)).
  set (b' := {| size1 := height; size2 := width;
                mdata := take (height * width) (buffer o) |}).
  assert (<[l := OMatrix b']> σ !! l = Some (OMatrix b')) as Hb'
    by apply lookup_insert_eq.
  split; [apply is_fresh|].
  split; [by erewrite Height_Ok by done|].
  split; [by erewrite Width_Ok by done|].
  split.
  - intros i j Hi Hj.
    destruct (lookup_lt_is_Some_2 (buffer o) (i * width + j)) as [x Hx]; [nia|].
    exists x. split; [done|].
    eapply Get_Ok; [done|done|done|]. simpl.
    rewrite lookup_take_lt by nia. done.
  - intros k Hk. rewrite lookup_insert_ne; [done|].
    intros <-. by apply (is_fresh (dom σ)).
Qed.

(** ** [Clone] of a square matrix, and the destructor *)

(** X3.  The clone of a square matrix lies in a block that was not in use
    and holds the dimensions and the numbers of the receiver; a [Set] on
    the clone leaves the receiver's block as it was. *)
Theorem Clone_square_independent (σ : store R) this b :
  σ !! m this = Some (OMatrix b) →
  shaped b → size1 b = size2 b →
  ∃ r σ',
    Clone this σ = Ok r σ'
    ∧ (m r ∉ dom σ)
    ∧ σ' !! m r = Some (OMatrix b)
    ∧ σ' !! m this = Some (OMatrix b)
    ∧ ∀ i j x, i < size1 b → j < size2 b →
        ∃ σ'', Set_ r i j x σ' = Ok tt σ''
               ∧ Get r i j σ'' = Ok x σ''
               ∧ σ'' !! m this = Some (OMatrix b).
Proof.
  intros Hthis Hshape Hsq.
  assert (m this ≠ fresh (dom σ)) as Hne by by eapply fresh_ne.
  eexists _, _. split; [by eapply Clone_Ok|].
  set (l := fresh (dom σ)) in *.
  assert ({| size1 := size2 b; size2 := size1 b; mdata := mdata b |} = b) as ->.
  { destruct b; simpl in *. by subst. }
  split; [apply is_fresh|].
  split; [apply lookup_insert_eq|].
  split; [by rewrite lookup_insert_ne|].
  intros i j x Hi Hj.
  destruct (Set_then_Get_aux (<[l := OMatrix b]> σ) {| m := l |} b i j x)
    as (σ'' & Hset & Hget & _ & _ & _ & Hother); [apply lookup_insert_eq|done..|].
  exists σ''. split; [done|]. split; [done|].
  rewrite Hother by done. by rewrite lookup_insert_ne.
Qed.


(** X4.  Destroying the clone gives back the store as it was before
    [Clone]: nothing is left allocated and the receiver is untouched. *)
Theorem Clone_then_destroy (σ : store R) this b :
  σ !! m this = Some (OMatrix b) →
  shaped b →
  ∃ r σ', Clone this σ = Ok r σ' ∧ Matrix_destroy r σ' = Ok tt σ.
Proof.
  intros Hthis Hshape.
  eexists _, _. split; [by eapply Clone_Ok|].
  unfold Matrix_destroy, gsl_matrix_free, free. simpl.
  rewrite delete_insert_id; [done|]. apply fresh_lookup.
Qed.

(** ** Rows *)

Lemma matrix_object_ne_vector (σ : store R) lm lv b x :
  σ !! lm = Some (OMatrix b) → σ !! lv = Some (OVector x) → lv ≠ lm.
Proof. intros Hm Hv ->. congruence. Qed.

(** X5.  For a row index in range [Row] returns a vector in a block that was
    not in use, of length [Width ()], holding the numbers of that row in
    order; every block that was live, the matrix included, is unchanged. *)
Theorem Row_copies_row (σ : store R) this b row :
  σ !! m this = Some (OMatrix b) →
  shaped b → row < size1 b →
  ∃ vec σ',
    Row this row σ = Ok vec σ'
    ∧ (v vec ∉ dom σ)
    ∧ σ' !! v vec = Some (OVector {| size := size2 b; vdata := matrix_row b row |})
    ∧ length (matrix_row b row) = size2 b
    ∧ (∀ j, j < size2 b → matrix_row b row !! j = mdata b !! (row * size2 b + j))
    ∧ (∀ l, l ∈ dom σ → σ' !! l = σ !! l).
Proof.
  intros Hthis Hshape Hrow.
  eexists _, _. split; [by apply Row_Ok|]. simpl.
  split; [apply is_fresh|].
  split; [apply lookup_insert_eq|].
  split; [by apply length_matrix_row|].
  split; [intros j Hj; by apply matrix_row_lookup|].
  intros l Hl. rewrite lookup_insert_ne; [done|].
  intros <-. by apply (is_fresh (dom σ)).
Qed.

(** The buffer after the loop of [gsl_matrix_set_row]. *)
Lemma SetRow_Ok (σ : store R) this vec b xs row :
  σ !! m this = Some (OMatrix b) →
  σ !! v vec = Some (OVector {| size := size2 b; vdata := xs |}) →
  shaped b → length xs = size2 b → row < size1 b →
  SetRow this row vec σ
  = Ok tt (<[m this := OMatrix {| size1 := size1 b; size2 := size2 b;
       mdata := foldl (λ d j, <[row * size2 b + j := at_ xs j]> d)
                      (mdata b) (seq 0 (size2 b)) |}]> σ).
Proof.
  intros Hthis Hvec Hshape Hxs Hrow. unfold SetRow, gsl_matrix_set_row.
  assert (v vec ≠ m this) as Hne by by eapply matrix_object_ne_vector.
  erewrite bind_Ok by by apply load_matrix_Ok.
  erewrite bind_Ok by by apply load_vector_Ok.
  rewrite decide_False by lia.
  rewrite decide_False by (simpl; intros ?; done).
  rewrite (for_writes_at (m this) (OMatrix b) σ _
             (λ j d, <[row * size2 b + j := at_ xs j]> d)); [done|done| |].
  - intros; apply length_insert.
  - intros j d Hj Hd. simpl in Hd.
    destruct (lookup_lt_is_Some_2 xs j) as [x Hx]; [lia|].
    erewrite bind_Ok; cycle 1.
    { eapply peek_Ok; [by rewrite lookup_insert_ne|done]. }
    erewrite bind_Ok; cycle 1.
    { apply load_buffer_Ok. apply lookup_insert_eq. }
    simpl. rewrite decide_True by (rewrite Hd, Hshape; nia).
    erewrite store_buffer_Ok by apply lookup_insert_eq.
    simpl. rewrite insert_insert_eq. by rewrite (at_lookup _ _ _ Hx).
Qed.

(** X6.  [SetRow (row, vec)] with a row index in range and a vector of
    length [Width ()] succeeds; afterwards that row holds the numbers of
    the vector, every other row holds what it held, the dimensions are the
    same and no other block has changed. *)
Theorem SetRow_overwrites_row (σ : store R) this vec b xs row :
  σ !! m this = Some (OMatrix b) →
  σ !! v vec = Some (OVector {| size := size2 b; vdata := xs |}) →
  shaped b → length xs = size2 b → row < size1 b →
  ∃ b',
    SetRow this row vec σ = Ok tt (<[m this := OMatrix b']> σ)
    ∧ size1 b' = size1 b ∧ size2 b' = size2 b ∧ shaped b'
    ∧ matrix_row b' row = xs
    ∧ ∀ i, i < size1 b → i ≠ row → matrix_row b' i = matrix_row b i.
Proof.
  intros Hthis Hvec Hshape Hxs Hrow.
  eexists. split; [by apply SetRow_Ok|]. simpl.
  destruct (write_pass (λ j, row * size2 b + j) (λ j _, at_ xs j) (size2 b)
              (mdata b)) as (Hlen & Hget & Hrest).
  { intros; lia. }
  set (d' := foldl _ (mdata b) (seq 0 (size2 b))) in *.
  split; [done|]. split; [done|].
  assert (shaped {| size1 := size1 b; size2 := size2 b; mdata := d' |}) as Hshape'.
  { unfold shaped. simpl. by rewrite Hlen. }
  split; [done|]. split.
  - apply list_eq. intros j.
    destruct (decide (j < size2 b)) as [Hj|Hj].
    + rewrite matrix_row_lookup by done. simpl. rewrite Hget by done.
      destruct (lookup_lt_is_Some_2 (mdata b) (row * size2 b + j)) as [y ->];
        [rewrite Hshape; nia|].
      destruct (lookup_lt_is_Some_2 xs j) as [x Hx]; [lia|].
      simpl. by rewrite (at_lookup _ _ _ Hx), Hx.
    + rewrite !lookup_ge_None_2; [done|lia|].
      rewrite length_matrix_row; [simpl; lia|done|done].
  - intros i Hi Hne. apply list_eq. intros j.
    destruct (decide (j < size2 b)) as [Hj|Hj].
    + rewrite !matrix_row_lookup by done. simpl.
      apply Hrest. intros j' Hj'.
      apply cell_index_ne; [done|done|]. intros [= ? ?]. done.
    + rewrite !lookup_ge_None_2; [done| |].
      * rewrite length_matrix_row; [lia|done|done].
      * rewrite length_matrix_row; [simpl; lia|done|done].
Qed.


(** ** Columns *)

Lemma length_matrix_column (b : gsl_matrix R) j :
  length (matrix_column b j) = size1 b.
Proof. unfold matrix_column. by rewrite length_fmap, length_seq. Qed.

Lemma matrix_column_lookup (b : gsl_matrix R) i j :
  shaped b → i < size1 b → j < size2 b →
  matrix_column b j !! i = mdata b !! (i * size2 b + j).
Proof.
  intros Hshape Hi Hj. unfold matrix_column.
  rewrite list_lookup_fmap, lookup_seq_lt by done. simpl.
  destruct (lookup_lt_is_Some_2 (mdata b) (i * size2 b + j)) as [y Hy];
    [rewrite Hshape; nia|].
  by rewrite (at_lookup _ _ _ Hy), Hy.
Qed.

(** Filling the cells [0 .. n-1] in order. *)
Lemma fill_pass (g : nat → R) n (d : list R) :
  length d = n →
  foldl (λ d i, <[i := g i]> d) d (seq 0 n) = g <$> seq 0 n.
Proof.
  intros Hd.
  destruct (write_pass (λ i, i) (λ i _, g i) n d) as (Hlen & Hget & _).
  { intros; lia. }
  apply list_eq. intros i. destruct (decide (i < n)) as [Hi|Hi].
  - rewrite Hget by done.
    destruct (lookup_lt_is_Some_2 d i) as [y ->]; [lia|].
    by rewrite list_lookup_fmap, lookup_seq_lt by done.
  - rewrite !lookup_ge_None_2; [done| |lia].
    rewrite length_fmap, length_seq. lia.
Qed.

Lemma Column_Ok (σ : store R) this b col :
  σ !! m this = Some (OMatrix b) →
  shaped b → col < size2 b →
  Column this col σ
  = Ok {| v := fresh (dom σ) |}
       (<[fresh (dom σ) :=
            OVector {| size := size1 b; vdata := matrix_column b col |}]> σ).
Proof.
  intros Hthis Hshape Hcol. unfold Column.
  erewrite bind_Ok by by apply Height_Ok.
  erewrite bind_Ok by reflexivity.
  set (l := fresh (dom σ)).
  assert (m this ≠ l) as Hne by by eapply fresh_ne.
  set (o := OVector {| size := size1 b; vdata := junk l (size1 b) |}).
  erewrite (bind_Ok (gsl_matrix_get_col _ _ _)); cycle 1.
  { unfold gsl_matrix_get_col.
    erewrite bind_Ok; cycle 1.
    { apply load_matrix_Ok. by rewrite lookup_insert_ne. }
    erewrite bind_Ok; cycle 1.
    { apply load_vector_Ok. apply lookup_insert_eq. }
    rewrite decide_False by lia.
    rewrite decide_False by (simpl; intros ?; done).
    apply (for_writes l o σ _
             (λ i d, <[i := at_ (mdata b) (i * size2 b + col)]> d)).
    - intros; apply length_insert.
    - intros i d Hi Hd. rewrite length_junk in Hd.
      destruct (lookup_lt_is_Some_2 (mdata b) (i * size2 b + col)) as [x Hx];
        [rewrite Hshape; nia|].
      erewrite bind_Ok; cycle 1.
      { eapply peek_Ok; [by rewrite lookup_insert_ne|done]. }
      erewrite poke_Ok; [|apply lookup_insert_eq|simpl; lia].
      simpl. rewrite insert_insert_eq. by rewrite (at_lookup _ _ _ Hx). }
  unfold Vector_gsl. rewrite ret_Ok. simpl.
  by rewrite fill_pass by apply length_junk.
Qed.

(** X7.  For a column index in range [Column] returns a vector in a block
    that was not in use, of length [Height ()], holding the numbers of
    that column from top to bottom; every block that was live, the matrix
    included, is unchanged. *)
Theorem Column_copies_column (σ : store R) this b col :
  σ !! m this = Some (OMatrix b) →
  shaped b → col < size2 b →
  ∃ vec σ',
    Column this col σ = Ok vec σ'
    ∧ (v vec ∉ dom σ)
    ∧ σ' !! v vec
      = Some (OVector {| size := size1 b; vdata := matrix_column b col |})
    ∧ length (matrix_column b col) = size1 b
    ∧ (∀ i, i < size1 b →
         matrix_column b col !! i = mdata b !! (i * size2 b + col))
    ∧ (∀ l, l ∈ dom σ → σ' !! l = σ !! l).
Proof.
  intros Hthis Hshape Hcol.
  eexists _, _. split; [by apply Column_Ok|]. simpl.
  split; [apply is_fresh|].
  split; [apply lookup_insert_eq|].
  split; [apply length_matrix_column|].
  split; [intros i Hi; by apply matrix_column_lookup|].
  intros l Hl. rewrite lookup_insert_ne; [done|].
  intros <-. by apply (is_fresh (dom σ)).
Qed.

(** The buffer after the loop of [gsl_matrix_set_col]. *)
Lemma SetColumn_Ok (σ : store R) this vec b xs col :
  σ !! m this = Some (OMatrix b) →
  σ !! v vec = Some (OVector {| size := size1 b; vdata := xs |}) →
  shaped b → length xs = size1 b → col < size2 b →
  SetColumn this col vec σ
  = Ok tt (<[m this := OMatrix {| size1 := size1 b; size2 := size2 b;
       mdata := foldl (λ d i, <[i * size2 b + col := at_ xs i]> d)
                      (mdata b) (seq 0 (size1 b)) |}]> σ).
Proof.
  intros Hthis Hvec Hshape Hxs Hcol. unfold SetColumn, gsl_matrix_set_col.
  assert (v vec ≠ m this) as Hne by by eapply matrix_object_ne_vector.
  erewrite bind_Ok by by apply load_matrix_Ok.
  erewrite bind_Ok by by apply load_vector_Ok.
  rewrite decide_False by lia.
  rewrite decide_False by (simpl; intros ?; done).
  rewrite (for_writes_at (m this) (OMatrix b) σ _
             (λ i d, <[i * size2 b + col := at_ xs i]> d)); [done|done| |].
  - intros; apply length_insert.
  - intros i d Hi Hd. simpl in Hd.
    destruct (lookup_lt_is_Some_2 xs i) as [x Hx]; [lia|].
    erewrite bind_Ok; cycle 1.
    { eapply peek_Ok; [by rewrite lookup_insert_ne|done]. }
    erewrite poke_Ok; [|apply lookup_insert_eq|simpl; rewrite Hd, Hshape; nia].
    simpl. rewrite insert_insert_eq. by rewrite (at_lookup _ _ _ Hx).
Qed.

(** The cells after [SetColumn]. *)
Lemma SetColumn_cells (b : gsl_matrix R) xs col :
  shaped b → length xs = size1 b → col < size2 b →
  let d' := foldl (λ d i, <[i * size2 b + col := at_ xs i]> d)
                  (mdata b) (seq 0 (size1 b)) in
  length d' = length (mdata b)
  ∧ ∀ i j, i < size1 b → j < size2 b →
      d' !! (i * size2 b + j)
      = if decide (j = col) then xs !! i else mdata b !! (i * size2 b + j).
Proof.
  intros Hshape Hxs Hcol.
  destruct (cell_per_row_pass (λ _, col) (λ i _, at_ xs i) (size2 b) (size1 b)
              (mdata b)) as (Hlen & _ & Hget); [done|].
  split; [done|]. intros i j Hi Hj. rewrite Hget by done.
  case_decide; [|done]. subst j.
  destruct (lookup_lt_is_Some_2 (mdata b) (i * size2 b + col)) as [y ->];
    [rewrite Hshape; nia|].
  destruct (lookup_lt_is_Some_2 xs i) as [x Hx]; [lia|].
  simpl. by rewrite (at_lookup _ _ _ Hx), Hx.
Qed.

Lemma matrix_column_eq (b b' : gsl_matrix R) j xs :
  size1 b' = size1 b → size2 b' = size2 b → length xs = size1 b →
  (∀ i, i < size1 b → mdata b' !! (i * size2 b + j) = xs !! i) →
  matrix_column b' j = xs.
Proof.
  intros H1 H2 Hxs Hcells. apply list_eq. intros i.
  unfold matrix_column. rewrite H1, H2.
  destruct (decide (i < size1 b)) as [Hi|Hi].
  - rewrite list_lookup_fmap, lookup_seq_lt by done. simpl.
    destruct (lookup_lt_is_Some_2 xs i) as [x Hx]; [lia|].
    rewrite Hx. f_equal. apply at_lookup. by rewrite Hcells.
  - rewrite !lookup_ge_None_2; [done|lia|].
    rewrite length_fmap, length_seq. lia.
Qed.

(** X8.  [SetColumn (col, vec)] with a column index in range and a vector of
    length [Height ()] succeeds; afterwards that column holds the numbers
    of the vector, every other column holds what it held, the dimensions
    are the same and no other block has changed. *)
Theorem SetColumn_overwrites_column (σ : store R) this vec b xs col :
  σ !! m this = Some (OMatrix b) →
  σ !! v vec = Some (OVector {| size := size1 b; vdata := xs |}) →
  shaped b → length xs = size1 b → col < size2 b →
  ∃ b',
    SetColumn this col vec σ = Ok tt (<[m this := OMatrix b']> σ)
    ∧ size1 b' = size1 b ∧ size2 b' = size2 b ∧ shaped b'
    ∧ matrix_column b' col = xs
    ∧ ∀ j, j < size2 b → j ≠ col → matrix_column b' j = matrix_column b j.
Proof.
  intros Hthis Hvec Hshape Hxs Hcol.
  eexists. split; [by apply SetColumn_Ok|]. simpl.
  destruct (SetColumn_cells b xs col) as (Hlen & Hget); [done..|].
  set (d' := foldl _ (mdata b) (seq 0 (size1 b))) in *.
  split; [done|]. split; [done|].
  split; [unfold shaped; simpl; by rewrite Hlen|].
  split.
  - apply (matrix_column_eq b); [done..|]. simpl.
    intros i Hi. rewrite Hget by done. by rewrite decide_True.
  - intros j Hj Hne.
    apply (matrix_column_eq b); [done|done|apply length_matrix_column|]. simpl.
    intros i Hi. rewrite Hget by done. rewrite decide_False by done.
    by rewrite matrix_column_lookup.
Qed.

(** Writing back into a column the numbers that it holds changes no
    block. *)
Lemma SetColumn_same (σ : store R) this b col vec :
  σ !! m this = Some (OMatrix b) →
  σ !! v vec = Some (OVector {| size := size1 b; vdata := matrix_column b col |}) →
  shaped b → col < size2 b →
  SetColumn this col vec σ = Ok tt σ.
Proof.
  intros Hthis Hvec Hshape Hcol. unfold SetColumn, gsl_matrix_set_col.
  erewrite bind_Ok by by apply load_matrix_Ok.
  erewrite bind_Ok by by apply load_vector_Ok.
  rewrite decide_False by lia.
  rewrite decide_False by (simpl; intros ?; done).
  destruct (for_seq_inv (λ _ s, s = σ)
    (λ i, x ← peek (v vec) i; poke (m this) (i * size2 b + col) x)
    (size1 b) σ) as (s' & Hrun & ->); [done| |done].
  intros i s Hi ->. exists σ. split; [|done].
  destruct (lookup_lt_is_Some_2 (mdata b) (i * size2 b + col)) as [x Hx];
    [rewrite Hshape; nia|].
  erewrite bind_Ok; cycle 1.
  { eapply peek_Ok; [done|]. simpl. by rewrite matrix_column_lookup. }
  erewrite poke_Ok; [|done|by eapply lookup_lt_Some].
  simpl. rewrite list_insert_id by done.
  destruct b; simpl. by rewrite insert_id.
Qed.

(** X9.  For a column index in range, [Column (col)] followed by
    [SetColumn (col, ...)] on the vector it returned succeeds and leaves
    the block of the matrix as it was; [SetColumn] changes no block. *)
Theorem SetColumn_of_Column_unchanged (σ : store R) this b col :
  σ !! m this = Some (OMatrix b) →
  shaped b → col < size2 b →
  ∃ vec σ1,
    Column this col σ = Ok vec σ1
    ∧ SetColumn this col vec σ1 = Ok tt σ1
    ∧ σ1 !! m this = Some (OMatrix b).
Proof.
  intros Hthis Hshape Hcol.
  assert (m this ≠ fresh (dom σ)) as Hne by by eapply fresh_ne.
  eexists _, _. split; [by apply Column_Ok|].
  assert (<[fresh (dom σ) :=
              OVector {| size := size1 b; vdata := matrix_column b col |}]> σ
            !! m this = Some (OMatrix b)) as Hthis1.
  { by rewrite lookup_insert_ne. }
  split; [|done].
  eapply SetColumn_same; [done| |done..].
  simpl. apply lookup_insert_eq.
Qed.


(** ** The diagonal constructor *)

Lemma set_all_Ok (σ : store R) l b x :
  σ !! l = Some (OMatrix b) → shaped b →
  gsl_matrix_set_all l x σ
  = Ok tt (<[l := OMatrix {| size1 := size1 b; size2 := size2 b;
       mdata := foldl (λ d i,
                  foldl (λ d j, <[i * size2 b + j := x]> d) d (seq 0 (size2 b)))
                  (mdata b) (seq 0 (size1 b)) |}]> σ).
Proof.
  intros Hl Hshape. unfold gsl_matrix_set_all.
  erewrite bind_Ok by by apply load_matrix_Ok.
  rewrite (for_writes_at l (OMatrix b) σ _
    (λ i d, foldl (λ d j, <[i * size2 b + j := x]> d) d (seq 0 (size2 b))));
    [done|done| |].
  - intros i d. apply (length_foldl_writes (λ j d, <[i * size2 b + j := x]> d)).
    intros; apply length_insert.
  - intros i d Hi Hd. simpl in Hd.
    apply (for_writes l (OMatrix b) σ _ (λ j d, <[i * size2 b + j := x]> d)).
    + intros; apply length_insert.
    + intros j d1 Hj Hd1.
      erewrite poke_Ok; [|apply lookup_insert_eq|simpl; rewrite Hd1, Hd, Hshape; nia].
      simpl. by rewrite insert_insert_eq.
Qed.

Lemma diagonal_index_ne n i j k :
  i < n → j < n → k < n → (i ≠ k ∨ j ≠ k) → i * n + j ≠ (n + 1) * k.
Proof.
  intros Hi Hj Hk Hne Heq.
  replace ((n + 1) * k) with (k * n + k) in Heq by lia.
  assert ((i, j) ≠ (k, k)) as Hpair by (intros [= ? ?]; lia).
  by apply (cell_index_ne n i j k k).
Qed.

(** X10.  [Matrix (vec)] for a vector of [n] numbers returns a matrix in a
    block that was not in use, of height and width [n], whose cell
    [(i, i)] holds the [i]-th number of the vector and whose other cells
    hold zero; the vector and every other live block are unchanged. *)
Theorem Matrix_vec_diagonal (σ : store R) vec xs :
  σ !! v vec = Some (OVector {| size := length xs; vdata := xs |}) →
  ∃ r σ' b',
    Matrix_vec vec σ = Ok r σ'
    ∧ (m r ∉ dom σ)
    ∧ σ' !! m r = Some (OMatrix b')
    ∧ size1 b' = length xs ∧ size2 b' = length xs ∧ shaped b'
    ∧ (∀ i j, i < length xs → j < length xs →
         mdata b' !! (i * length xs + j)
         = if decide (i = j) then xs !! i else Some zero)
    ∧ (∀ l, l ∈ dom σ → σ' !! l = σ !! l).
Proof.
  intros Hvec. set (n := length xs) in *.
  set (l := fresh (dom σ)).
  assert (v vec ≠ l) as Hne by by eapply fresh_ne.
  set (b0 := {| size1 := n; size2 := n; mdata := junk l (n * n) |}).
  set (d1 := foldl (λ d i, foldl (λ d j, <[i * n + j := zero]> d) d (seq 0 n))
               (junk l (n * n)) (seq 0 n)).
  set (d2 := foldl (λ d j, <[(n + 1) * j := at_ xs j]> d) d1 (seq 0 n)).
  destruct (cells_pass (λ _ _ _, zero) n n (junk l (n * n))) as (Hlen1 & _ & Hget1).
  fold d1 in Hlen1, Hget1. rewrite length_junk in Hlen1.
  destruct (write_pass (λ j, (n + 1) * j) (λ j _, at_ xs j) n d1)
    as (Hlen2 & Hget2 & Hrest2).
  { intros; nia. }
  fold d2 in Hlen2, Hget2, Hrest2.
  exists {| m := l |}, (<[l := OMatrix {| size1 := n; size2 := n; mdata := d2 |}]> σ),
    {| size1 := n; size2 := n; mdata := d2 |}.
  split.
  - unfold Matrix_vec.
    erewrite bind_Ok by by apply load_vector_Ok.
    erewrite bind_Ok by reflexivity. simpl. fold n l b0.
    erewrite bind_Ok; cycle 1.
    { unfold gsl_matrix_diagonal.
      erewrite bind_Ok by (apply load_matrix_Ok; apply lookup_insert_eq).
      reflexivity. }
    erewrite bind_Ok; cycle 1.
    { apply (set_all_Ok _ l b0); [apply lookup_insert_eq|].
      unfold shaped. simpl. apply length_junk. }
    rewrite insert_insert_eq. simpl. fold d1.
    erewrite bind_Ok; [reflexivity|].
    unfold gsl_vector_memcpy.
    erewrite bind_Ok; cycle 1.
    { apply load_vector_Ok. by rewrite lookup_insert_ne. }
    simpl. rewrite decide_False by lia.
    apply (for_writes l (OMatrix b0) σ _ (λ j d, <[(n + 1) * j := at_ xs j]> d) n d1).
    + intros; apply length_insert.
    + intros j d Hj Hd.
      destruct (lookup_lt_is_Some_2 xs j) as [x Hx]; [done|].
      erewrite bind_Ok; cycle 1.
      { eapply peek_Ok; [by rewrite lookup_insert_ne|done]. }
      erewrite poke_Ok; [|apply lookup_insert_eq|simpl; rewrite Hd, Hlen1; nia].
      simpl. rewrite insert_insert_eq. by rewrite (at_lookup _ _ _ Hx).
  - split; [apply is_fresh|].
    split; [apply lookup_insert_eq|].
    split; [done|]. split; [done|].
    split; [unfold shaped; simpl; lia|].
    split.
    + simpl. intros i j Hi Hj. case_decide as Hij.
      * subst j. replace (i * n + i) with ((n + 1) * i) by lia.
        rewrite Hget2 by done.
        destruct (lookup_lt_is_Some_2 d1 ((n + 1) * i)) as [y ->]; [nia|].
        destruct (lookup_lt_is_Some_2 xs i) as [x Hx]; [done|].
        simpl. by rewrite (at_lookup _ _ _ Hx), Hx.
      * rewrite Hrest2.
        -- rewrite Hget1 by done.
           by destruct (lookup_lt_is_Some_2 (junk l (n * n)) (i * n + j)) as [y ->];
             [rewrite length_junk; nia|].
        -- intros k Hk. apply diagonal_index_ne; [done..|].
           destruct (decide (i = k)); [right; congruence|by left].
    + intros k Hk. rewrite lookup_insert_ne; [done|].
      intros <-. by apply (is_fresh (dom σ)).
Qed.

(** ** [Add] *)

Lemma Add_Ok (σ : store R) this other a b :
  σ !! m this = Some (OMatrix a) →
  σ !! m other = Some (OMatrix b) →
  m this ≠ m other →
  shaped a → shaped b →
  size1 b = size1 a → size2 b = size2 a →
  Add this other σ
  = Ok tt (<[m this := OMatrix {| size1 := size1 a; size2 := size2 a;
       mdata := foldl (λ d i,
                  foldl (λ d j,
                    <[i * size2 a + j :=
                        add (at_ d (i * size2 a + j))
                            (at_ (mdata b) (i * size2 a + j))]> d)
                    d (seq 0 (size2 a)))
                  (mdata a) (seq 0 (size1 a)) |}]> σ).
Proof.
  intros Hthis Hother Hne Hsa Hsb H1 H2. unfold Add, gsl_matrix_add.
  erewrite bind_Ok by by apply load_matrix_Ok.
  erewrite bind_Ok by by apply load_matrix_Ok.
  rewrite decide_False by (intros [?|?]; done).
  rewrite H2.
  rewrite (for_writes_at (m this) (OMatrix a) σ _
    (λ i d, foldl (λ d j,
       <[i * size2 a + j := add (at_ d (i * size2 a + j))
                                (at_ (mdata b) (i * size2 a + j))]> d)
       d (seq 0 (size2 a)))); [done|done| |].
  - intros i d.
    apply (length_foldl_writes (λ j d,
       <[i * size2 a + j := add (at_ d (i * size2 a + j))
                                (at_ (mdata b) (i * size2 a + j))]> d)).
    intros; apply length_insert.
  - intros i d Hi Hd. simpl in Hd.
    apply (for_writes (m this) (OMatrix a) σ _ (λ j d,
       <[i * size2 a + j := add (at_ d (i * size2 a + j))
                                (at_ (mdata b) (i * size2 a + j))]> d)).
    + intros; apply length_insert.
    + intros j d1 Hj Hd1.
      destruct (lookup_lt_is_Some_2 d1 (i * size2 a + j)) as [x Hx];
        [rewrite Hd1, Hd, Hsa; nia|].
      destruct (lookup_lt_is_Some_2 (mdata b) (i * size2 a + j)) as [y Hy];
        [rewrite Hsb, H1, H2; nia|].
      erewrite bind_Ok; cycle 1.
      { eapply peek_Ok; [apply lookup_insert_eq|done]. }
      erewrite bind_Ok; cycle 1.
      { eapply peek_Ok; [by rewrite lookup_insert_ne|done]. }
      erewrite poke_Ok; [|apply lookup_insert_eq|simpl; by eapply lookup_lt_Some].
      simpl. rewrite insert_insert_eq.
      by rewrite (at_lookup _ _ _ Hx), (at_lookup _ _ _ Hy).
Qed.

(** X11.  [Add (other)] on two distinct matrices of the same dimensions
    succeeds; afterwards cell [(i, j)] of the receiver holds the sum of
    what the two cells [(i, j)] held, the dimensions are the same, and
    [other] and every other block are unchanged. *)
Theorem Add_sums_cells (σ : store R) this other a b :
  σ !! m this = Some (OMatrix a) →
  σ !! m other = Some (OMatrix b) →
  m this ≠ m other →
  shaped a → shaped b →
  size1 b = size1 a → size2 b = size2 a →
  ∃ a',
    Add this other σ = Ok tt (<[m this := OMatrix a']> σ)
    ∧ size1 a' = size1 a ∧ size2 a' = size2 a ∧ shaped a'
    ∧ ∀ i j, i < size1 a → j < size2 a →
        ∃ x y, mdata a !! (i * size2 a + j) = Some x
               ∧ mdata b !! (i * size2 a + j) = Some y
               ∧ mdata a' !! (i * size2 a + j) = Some (add x y).
Proof.
  intros Hthis Hother Hne Hsa Hsb H1 H2.
  eexists. split; [by apply Add_Ok|]. simpl.
  destruct (cells_pass (λ i j x, add x (at_ (mdata b) (i * size2 a + j)))
              (size2 a) (size1 a) (mdata a)) as (Hlen & _ & Hget).
  split; [done|]. split; [done|].
  split; [unfold shaped; simpl; by rewrite Hlen|].
  intros i j Hi Hj.
  destruct (lookup_lt_is_Some_2 (mdata a) (i * size2 a + j)) as [x Hx];
    [rewrite Hsa; nia|].
  destruct (lookup_lt_is_Some_2 (mdata b) (i * size2 a + j)) as [y Hy];
    [rewrite Hsb, H1, H2; nia|].
  exists x, y. split; [done|]. split; [done|].
  rewrite Hget by done. rewrite Hx. simpl.
  by rewrite (at_lookup _ _ _ Hy).
Qed.

(** X12.  [Add] of a matrix to itself succeeds and doubles every cell: cell
    [(i, j)] holds [x + x] for the [x] it held. *)
Theorem Add_to_itself (σ : store R) this a :
  σ !! m this = Some (OMatrix a) →
  shaped a →
  ∃ a',
    Add this this σ = Ok tt (<[m this := OMatrix a']> σ)
    ∧ size1 a' = size1 a ∧ size2 a' = size2 a ∧ shaped a'
    ∧ ∀ i j, i < size1 a → j < size2 a →
        ∃ x, mdata a !! (i * size2 a + j) = Some x
             ∧ mdata a' !! (i * size2 a + j) = Some (add x x).
Proof.
  intros Hthis Hsa.
  set (f := λ i j (d : list R),
         <[i * size2 a + j := add (at_ d (i * size2 a + j))
                                  (at_ d (i * size2 a + j))]> d).
  exists {| size1 := size1 a; size2 := size2 a;
            mdata := foldl (λ d i, foldl (λ d j, f i j d) d (seq 0 (size2 a)))
                           (mdata a) (seq 0 (size1 a)) |}.
  split.
  - unfold Add, gsl_matrix_add.
    erewrite bind_Ok by by apply load_matrix_Ok.
    erewrite bind_Ok by by apply load_matrix_Ok.
    rewrite decide_False by (intros [?|?]; done).
    rewrite (for_writes_at (m this) (OMatrix a) σ _
      (λ i d, foldl (λ d j, f i j d) d (seq 0 (size2 a)))); [done|done| |].
    + intros i d. apply (length_foldl_writes (λ j d, f i j d)).
      intros; apply length_insert.
    + intros i d Hi Hd. simpl in Hd.
      apply (for_writes (m this) (OMatrix a) σ _ (λ j d, f i j d)).
      * intros; apply length_insert.
      * intros j d1 Hj Hd1.
        destruct (lookup_lt_is_Some_2 d1 (i * size2 a + j)) as [x Hx];
          [rewrite Hd1, Hd, Hsa; nia|].
        erewrite bind_Ok; cycle 1.
        { eapply peek_Ok; [apply lookup_insert_eq|done]. }
        erewrite bind_Ok; cycle 1.
        { eapply peek_Ok; [apply lookup_insert_eq|done]. }
        erewrite poke_Ok; [|apply lookup_insert_eq|simpl; by eapply lookup_lt_Some].
        simpl. rewrite insert_insert_eq. unfold f.
        by rewrite (at_lookup _ _ _ Hx).
  - simpl.
    destruct (cells_pass (λ i j x, add x x) (size2 a) (size1 a) (mdata a))
      as (Hlen & _ & Hget).
    assert (foldl (λ d i, foldl (λ d j, f i j d) d (seq 0 (size2 a)))
              (mdata a) (seq 0 (size1 a))
            = foldl (λ d i, foldl (λ d j,
                <[i * size2 a + j := add (at_ d (i * size2 a + j))
                                         (at_ d (i * size2 a + j))]> d)
                d (seq 0 (size2 a))) (mdata a) (seq 0 (size1 a))) as -> by done.
    split; [done|]. split; [done|].
    split; [unfold shaped; simpl; by rewrite Hlen|].
    intros i j Hi Hj.
    destruct (lookup_lt_is_Some_2 (mdata a) (i * size2 a + j)) as [x Hx];
      [rewrite Hsa; nia|].
    exists x. split; [done|]. rewrite Hget by done. by rewrite Hx.
Qed.


(** ** [Multiply]: what stays in the store *)



Section Gram.

Hypothesis add_zero_l : ∀ x, add zero x = x.
Hypothesis mul_one_l : ∀ x, mul one x = x.
Hypothesis mul_comm : ∀ x y, mul x y = mul y x.

Lemma dot_comm_from (x : list R) : ∀ y acc,
  foldl (λ acc ab, add acc (mul ab.1 ab.2)) acc (zip x y)
  = foldl (λ acc ab, add acc (mul ab.1 ab.2)) acc (zip y x).
Proof using mul_comm.
  induction x as [|a x IH]; intros [|b y] acc; simpl; try done.
  by rewrite IH, (mul_comm a b).
Qed.

(** X15.  When the multiplication of numbers is commutative, the product of
    a matrix with itself is symmetric: [Multiply (A, A)] is an
    [A.height × A.height] matrix whose cells [(i, j)] and [(j, i)] hold
    the same number, the dot product of rows [i] and [j] of [A]. *)
Theorem Multiply_by_itself_symmetric (σ : store R) this a :
  σ !! m this = Some (OMatrix a) →
  valid a →
  ∃ r σ',
    Multiply this this σ = Ok r σ'
    ∧ Height r σ' = Ok (size1 a) σ'
    ∧ Width r σ' = Ok (size1 a) σ'
    ∧ ∀ i j, i < size1 a → j < size1 a →
        Get r i j σ' = Ok (dot (matrix_row a i) (matrix_row a j)) σ'
        ∧ Get r j i σ' = Ok (dot (matrix_row a i) (matrix_row a j)) σ'.
Proof using add_zero_l mul_one_l mul_comm.
  intros Hthis Ha.
  destruct (Multiply_Ok add_zero_l mul_one_l σ this this a a)
    as (r & σ' & cells & Hrun & Hr & Hcells); [done..|].
  assert (∀ i, take (size2 a) (matrix_row a i) = matrix_row a i) as Htake.
  { intros i. unfold matrix_row. rewrite take_take. f_equal. lia. }
  exists r, σ'. split; [done|].
  split; [by erewrite Height_Ok by done|].
  split; [by erewrite Width_Ok by done|].
  intros i j Hi Hj. split.
  - eapply Get_Ok; [done|done|done|]. simpl.
    rewrite Hcells by done. by rewrite Htake.
  - eapply Get_Ok; [done|done|done|]. simpl.
    rewrite Hcells by done. rewrite Htake. f_equal.
    unfold dot. apply dot_comm_from.
Qed.

End Gram.

(** ** [Multiply (Vector)]: the argument check *)

(** X16.  For every matrix and every vector of two or more numbers,
    [Multiply (vec)] stops in the argument check of [cblas_dgemm]
    (parameter 14, the leading dimension of the result) and returns no
    vector. *)
Theorem Multiply_Vector_long_vector_stops (σ : store R) this vec a x :
  σ !! m this = Some (OMatrix a) →
  σ !! v vec = Some (OVector x) →
  1 < size x →
  Multiply_Vector this vec σ = Err (Xerbla 14).
Proof. apply Multiply_Vector_xerbla. Qed.

(** X17.  Unless the vector holds exactly one number and the matrix has
    exactly one column, [Multiply (vec)] stops in the argument check of
    [cblas_dgemm] and returns no vector: at parameter 14 when the vector
    holds two or more numbers, else at parameter 11 when the vector is
    empty or the matrix has two or more columns, else (the matrix has no
    column) at parameter 9. *)
Theorem Multiply_Vector_stops_unless_one_column (σ : store R) this vec a x :
  σ !! m this = Some (OMatrix a) →
  σ !! v vec = Some (OVector x) →
  ¬ (size x = 1 ∧ size2 a = 1) →
  Multiply_Vector this vec σ
  = Err (Xerbla (if decide (1 < size x) then 14
                 else if decide (size x = 0 ∨ 1 < size2 a) then 11
                 else 9)).
Proof.
  intros Hthis Hvec Hnot. unfold Multiply_Vector, Vector_Size.
  erewrite bind_Ok; cycle 1.
  { erewrite bind_Ok by by apply load_vector_Ok. reflexivity. }
  erewrite bind_Ok by reflexivity.
  set (l := fresh (dom σ)).
  set (σ1 := <[l := OVector {| size := size x; vdata := replicate (size x) zero |}]> σ).
  assert (m this ≠ l) as Hne1 by by eapply fresh_ne.
  assert (σ1 !! m this = Some (OMatrix a)) as Hthis1.
  { unfold σ1. by rewrite lookup_insert_ne. }
  erewrite bind_Ok by by apply Height_Ok.
  erewrite bind_Ok by by apply Width_Ok.
  erewrite bind_Ok by by apply load_matrix_Ok.
  erewrite bind_Err; [reflexivity|].
  unfold cblas_dgemm, gemm_error_pos.
  repeat case_decide; try done; lia.
Qed.


(** ** [Sphere] *)

Lemma map_pass (g : R → R) (d : list R) :
  foldl (λ d i, <[i := g (at_ d i)]> d) d (seq 0 (length d)) = g <$> d.
Proof.
  destruct (write_pass (λ i, i) (λ _, g) (length d) d) as (Hlen & Hin & _);
    [done|].
  apply list_eq. intros i. rewrite list_lookup_fmap.
  destruct (decide (i < length d)) as [Hi|Hi].
  - by apply Hin.
  - rewrite (lookup_ge_None_2 d) by lia. simpl.
    apply lookup_ge_None_2. rewrite Hlen. lia.
Qed.

Lemma vector_pass (σ : store R) l n xs (g : R → R) :
  σ !! l = Some (OVector {| size := n; vdata := xs |}) →
  length xs = n →
  Err.for_ (seq 0 n) (λ i, y ← peek l i; poke l i (g y)) σ
  = Ok tt (<[l := OVector {| size := n; vdata := g <$> xs |}]> σ).
Proof.
  intros Hl Hn.
  rewrite (for_writes_at l (OVector {| size := n; vdata := xs |}) σ _
             (λ i d, <[i := g (at_ d i)]> d)); [|done| |].
  - simpl. by rewrite <- Hn, map_pass.
  - intros; apply length_insert.
  - intros i d Hi Hd. simpl in Hd.
    destruct (lookup_lt_is_Some_2 d i) as [y Hy]; [lia|].
    erewrite bind_Ok; cycle 1.
    { eapply peek_Ok; [apply lookup_insert_eq|done]. }
    erewrite poke_Ok; [|apply lookup_insert_eq|simpl; by eapply lookup_lt_Some].
    simpl. rewrite insert_insert_eq.
    by rewrite (at_lookup _ _ _ Hy).
Qed.

Lemma gsl_vector_add_constant_Ok (σ : store R) l n xs x :
  σ !! l = Some (OVector {| size := n; vdata := xs |}) →
  length xs = n →
  gsl_vector_add_constant l x σ
  = Ok tt (<[l := OVector {| size := n; vdata := (λ y, add y x) <$> xs |}]> σ).
Proof.
  intros Hl Hn. unfold gsl_vector_add_constant.
  erewrite bind_Ok by by apply load_vector_Ok.
  by apply (vector_pass σ l n xs (λ y, add y x)).
Qed.

Lemma gsl_vector_scale_Ok (σ : store R) l n xs x :
  σ !! l = Some (OVector {| size := n; vdata := xs |}) →
  length xs = n →
  gsl_vector_scale l x σ
  = Ok tt (<[l := OVector {| size := n; vdata := (λ y, mul y x) <$> xs |}]> σ).
Proof.
  intros Hl Hn. unfold gsl_vector_scale.
  erewrite bind_Ok by by apply load_vector_Ok.
  by apply (vector_pass σ l n xs (λ y, mul y x)).
Qed.

Lemma stats_call_Ok (σ : store R) f l o n :
  σ !! l = Some o → length (buffer o) = n →
  stats_call f l n σ = Ok (f (buffer o)) σ.
Proof.
  intros Hl Hn. unfold stats_call.
  erewrite bind_Ok by by apply load_buffer_Ok.
  rewrite decide_True by lia. by rewrite take_ge by lia.
Qed.

Lemma lookup_at (d : list R) k : k < length d → d !! k = Some (at_ d k).
Proof.
  intros Hk. destruct (lookup_lt_is_Some_2 d k Hk) as [x Hx].
  by rewrite (at_lookup _ _ _ Hx).
Qed.

(** One round of the loop of [Sphere]. *)
Lemma Sphere_round (σ : store R) this b col :
  σ !! m this = Some (OMatrix b) →
  shaped b → col < size2 b →
  let c := matrix_column b col in
  (sum ← fold_ (seq 0 (size1 b)) zero (λ sum row,
             x ← Get this row col; mret (add sum x));
   vec ← Column this col;
   mean ← stats_call gsl_stats_mean (v vec) (size1 b);
   stdev ← stats_call gsl_stats_sd (v vec) (size1 b);
   gsl_vector_add_constant (v vec) (neg mean);;
   gsl_vector_scale (v vec) (div one stdev);;
   gsl_matrix_set_col (m this) col (v vec);;
   Vector_destroy vec) σ
  = Ok tt (<[m this := OMatrix {| size1 := size1 b; size2 := size2 b;
       mdata := foldl (λ d i, <[i * size2 b + col := at_ (sphered c <$> c) i]> d)
                      (mdata b) (seq 0 (size1 b)) |}]> σ).
Proof.
  intros Hthis Hs Hcol c.
  destruct (fold_reads (seq 0 (size1 b))
              (λ sum row, x ← Get this row col; mret (add sum x)) σ zero)
    as [sum Hsum].
  { intros acc row Hrow. apply elem_of_seq in Hrow.
    assert (row * size2 b + col < length (mdata b)) as Hlt by (rewrite Hs; nia).
    exists (add acc (at_ (mdata b) (row * size2 b + col))).
    erewrite bind_Ok; [reflexivity|].
    eapply Get_Ok; [done|lia|done|by apply lookup_at]. }
  erewrite bind_Ok by exact Hsum.
  erewrite bind_Ok by by apply Column_Ok.
  set (l := fresh (dom σ)). fold c. simpl.
  assert (m this ≠ l) as Hne by by eapply fresh_ne.
  assert (length c = size1 b) as Hlc by apply length_matrix_column.
  erewrite bind_Ok; cycle 1.
  { eapply stats_call_Ok; [apply lookup_insert_eq|done]. }
  erewrite bind_Ok; cycle 1.
  { eapply stats_call_Ok; [apply lookup_insert_eq|done]. }
  simpl.
  erewrite bind_Ok; cycle 1.
  { eapply gsl_vector_add_constant_Ok; [apply lookup_insert_eq|done]. }
  rewrite insert_insert_eq.
  erewrite bind_Ok; cycle 1.
  { eapply gsl_vector_scale_Ok; [apply lookup_insert_eq|by rewrite length_fmap]. }
  rewrite insert_insert_eq.
  erewrite bind_Ok; cycle 1.
  { apply (SetColumn_Ok _ this {| v := l |} b).
    - by rewrite lookup_insert_ne.
    - apply lookup_insert_eq.
    - done.
    - by rewrite !length_fmap.
    - done. }
  unfold Vector_destroy, gsl_vector_free, free. simpl.
  rewrite delete_insert_ne by done.
  rewrite delete_insert_id by apply fresh_lookup.
  do 4 f_equal. rewrite <- list_fmap_compose. done.
Qed.

(** X18.  [Sphere] on a matrix with all its cells succeeds and standardises
    each column on its own: cell [(i, j)], which held [x], holds
    [(x + -mean) * (1.0 / sd)] afterwards, where [mean] and [sd] are
    [gsl_stats_mean] and [gsl_stats_sd] of column [j] as it was before the
    call; the dimensions stay, no other block changes and the vectors the
    loop takes are all released. *)
Theorem Sphere_standardises_columns (σ : store R) this b :
  σ !! m this = Some (OMatrix b) →
  shaped b →
  ∃ b',
    Sphere this σ = Ok tt (<[m this := OMatrix b']> σ)
    ∧ size1 b' = size1 b ∧ size2 b' = size2 b ∧ shaped b'
    ∧ ∀ i j, i < size1 b → j < size2 b →
        mdata b' !! (i * size2 b + j)
        = Some (sphered (matrix_column b j) (at_ (mdata b) (i * size2 b + j))).
Proof.
  intros Hthis Hs. unfold Sphere.
  erewrite bind_Ok by by apply Height_Ok.
  erewrite bind_Ok by by apply Width_Ok.
  set (I := λ (k : nat) (s : store R), ∃ bk,
     s = <[m this := OMatrix bk]> σ
     ∧ size1 bk = size1 b ∧ size2 bk = size2 b ∧ shaped bk
     ∧ ∀ i j, i < size1 b → j < size2 b →
         mdata bk !! (i * size2 b + j)
         = Some (if decide (j < k)
                 then sphered (matrix_column b j) (at_ (mdata b) (i * size2 b + j))
                 else at_ (mdata b) (i * size2 b + j))).
  edestruct (for_seq_inv I) as (s' & Hrun & bn & -> & H1 & H2 & Hsn & Hcells);
    cycle 2.
  { exists bn. split; [exact Hrun|]. split; [done|]. split; [done|].
    split; [done|]. intros i j Hi Hj. rewrite Hcells by done.
    by rewrite decide_True by done. }
  { exists b. split; [by rewrite insert_id|]. split; [done|]. split; [done|].
    split; [done|]. intros i j Hi Hj. rewrite decide_False by lia.
    apply lookup_at. rewrite Hs. nia. }
  intros k s Hk (bk & -> & H1 & H2 & Hsk & Hcells).
  assert (matrix_column bk k = matrix_column b k) as Hc.
  { apply (matrix_column_eq b bk); [done|done|apply length_matrix_column|].
    intros i Hi. rewrite Hcells by done. rewrite decide_False by lia.
    rewrite matrix_column_lookup by done.
    apply eq_sym, lookup_at. rewrite Hs. nia. }
  eexists. split.
  { rewrite <- H1.
    rewrite (Sphere_round _ this bk k); [|apply lookup_insert_eq|done|lia].
    by rewrite insert_insert_eq. }
  eexists. split; [reflexivity|]. simpl.
  split; [done|]. split; [done|].
  set (c := matrix_column bk k).
  assert (length (sphered c <$> c) = size1 bk) as Hlc.
  { rewrite length_fmap. apply length_matrix_column. }
  destruct (SetColumn_cells bk (sphered c <$> c) k Hsk Hlc) as [Hlen Hnew];
    [lia|].
  split.
  { unfold shaped. simpl. rewrite Hlen. by rewrite Hsk. }
  intros i j Hi Hj. rewrite <- H2. rewrite Hnew by lia.
  rewrite H2. destruct (decide (j = k)) as [->|Hjk].
  - rewrite decide_True by lia.
    rewrite list_lookup_fmap. unfold c at 2.
    rewrite (matrix_column_lookup bk i k Hsk) by lia.
    rewrite H2, Hcells by done. rewrite decide_False by lia. simpl.
    unfold c. by rewrite Hc.
  - rewrite Hcells by done.
    destruct (decide (j < k)); [rewrite decide_True by lia|rewrite decide_False by lia];
      done.
Qed.


(** ** [Invert]: what stays in the store *)

(** X19.  When the factor it decomposes is not singular, [Invert] on a
    square matrix returns, and it has released the copy and the
    permutation but not the block [inverse] that the LU routine fills:
    the store holds two blocks more than before, [inverse] and the
    returned matrix, with the same dimensions and numbers. *)
Theorem Invert_keeps_inverse_block {kernel : LU R} (σ : store R) this b :
  σ !! m this = Some (OMatrix b) →
  size1 b = size2 b →
  length (mdata b) = size1 b * size2 b →
  singular (Invert_factor (dom σ) (size2 b)) = false →
  ∃ r t σ' inv,
    Invert this σ = Ok {| m := r |} σ'
    ∧ t ≠ r ∧ (t ∉ dom σ) ∧ (r ∉ dom σ)
    ∧ σ' !! t = Some (OMatrix inv)
    ∧ σ' !! r = Some (OMatrix inv)
    ∧ size1 inv = size2 b ∧ size2 inv = size2 b
    ∧ dom σ' = {[r]} ∪ ({[t]} ∪ dom σ).
Proof.
  intros Hthis Hsq Hlen Hsing.
  pose proof (Invert_run σ this b Hthis Hsq Hlen) as Hrun. cbv zeta in Hrun.
  rewrite Hsing in Hrun.
  destruct (Invert_addresses (dom σ)) as (Ht & Hr & Htr).
  eexists _, _, _, _.
  split; [exact Hrun|].
  split; [done|]. split; [done|]. split; [done|].
  split; [rewrite lookup_insert_ne by (by apply not_eq_sym); apply lookup_insert_eq|].
  split; [apply lookup_insert_eq|].
  split; [done|]. split; [done|].
  by rewrite !dom_insert_L.
Qed.


End FactsRest.

(** ** The text-file constructor on files it can read *)

Lemma NumberOfRows_loop_byte_255 pre post : ∀ fuel f lastChar count,
  drop (pos f) (contents f) = pre ++ "255"%char :: post →
  Forall (λ c, c ≠ "255"%char) pre →
  length pre < fuel →
  ∃ f', NumberOfRows_loop fuel f lastChar count
        = Some (count + transitions is_newline (lastChar =? 10)%Z pre, f')
        ∧ contents f' = contents f.
Proof.
  induction pre as [|c pre IH]; intros fuel f lastChar count Hd Hff Hfuel;
    (destruct fuel as [|fuel]; [simpl in Hfuel; lia|]); simpl.
  - destruct (fgetc_byte f _ post Hd) as [-> _]. simpl.
    eexists. by rewrite Nat.add_0_r.
  - destruct (fgetc_byte f c _ Hd) as [-> Hd'].
    apply Forall_cons in Hff as [Hc Hff].
    rewrite (char_not_EOF c Hc), char_is_newline.
    destruct (IH fuel {| contents := contents f; pos := S (pos f) |}
                (to_char (int_of_byte c))
                (if (lastChar =? 10)%Z && negb (is_newline c)
                 then S count else count)) as (f' & -> & Hf');
      [done|done|simpl in Hfuel; lia|].
    exists f'. split; [|done].
    rewrite char_is_newline.
    do 2 f_equal. destruct ((lastChar =? 10)%Z && negb (is_newline c)); lia.
Qed.

(** X23.  On a file without a byte 255, [NumberOfRows] returns the number
    of lines that hold at least one character (lines are what the newline
    bytes separate; a last line needs no newline after it) and leaves the
    file rewound to its start. *)
Theorem NumberOfRows_counts_non_blank_lines (bytes : list ascii) fuel :
  Forall (λ c, c ≠ "255"%char) bytes →
  length bytes < fuel →
  NumberOfRows fuel {| contents := bytes; pos := 0 |}
  = Some (length (non_blank_lines bytes), {| contents := bytes; pos := 0 |}).
Proof. apply NumberOfRows_spec. Qed.

(** X24.  A byte 255 reads as [EOF] once it is stored in the [char]
    variable, so [NumberOfRows] stops there: it returns the number of
    non-blank lines of the text before the first such byte, whatever
    follows it. *)
Theorem NumberOfRows_stops_at_byte_255 (pre post : list ascii) fuel :
  Forall (λ c, c ≠ "255"%char) pre →
  length pre < fuel →
  let bytes := pre ++ "255"%char :: post in
  NumberOfRows fuel {| contents := bytes; pos := 0 |}
  = Some (length (non_blank_lines pre), {| contents := bytes; pos := 0 |}).
Proof.
  intros Hff Hfuel bytes. unfold NumberOfRows.
  destruct (NumberOfRows_loop_byte_255 pre post fuel
              {| contents := bytes; pos := 0 |} 10%Z 0)
    as (f' & -> & Hf'); [done..|].
  simpl. rewrite transitions_count. unfold fseek_start.
  by rewrite Hf'.
Qed.

(** X25.  When the first line of the file ends in a newline,
    [NumberOfColumns] returns the number of whitespace-delimited tokens on
    that line, whatever the later lines hold, and leaves the file rewound
    to its start. *)
Theorem NumberOfColumns_counts_tokens (line rest : list ascii) fuel :
  Forall (λ c, is_newline c = false) line →
  length line < fuel →
  let bytes := line ++ "010"%char :: rest in
  first_line bytes = line
  ∧ NumberOfColumns fuel {| contents := bytes; pos := 0 |}
    = Some (length (tokens line), {| contents := bytes; pos := 0 |}).
Proof. apply NumberOfColumns_spec. Qed.

Section FileFacts.

Context {R : Type} {heap : Uninit R} {scanner : Scanner R}.

Lemma raw_fscanf_fails n : ∀ i rest (d : list R),
  scan_all n rest = None → raw_fscanf n i rest d = None.
Proof.
  induction n as [|n IH]; intros i rest d; simpl; [done|].
  destruct (scan_double rest) as [[x r1]|]; [|done].
  destruct (scan_all n r1) as [[ys r2]|] eqn:Hn; [done|].
  intros _. by apply IH.
Qed.

(** X26.  For a file whose first line ends in a newline and that holds
    [rows * cols] readable numbers ([rows] its non-blank lines, [cols] the
    tokens of its first line), the constructor returns a [rows × cols]
    matrix in a block of its own that holds the first [rows * cols] numbers
    of the file in reading order, wherever the line breaks fall. *)
Theorem Matrix_file_reads_numbers_in_order (bytes line more : list ascii)
    (xs : list R) rest (σ : store R) :
  bytes = line ++ "010"%char :: more →
  Forall (λ c, is_newline c = false) line →
  Forall (λ c, c ≠ "255"%char) bytes →
  scan_all (length (non_blank_lines bytes) * length (tokens line)) bytes
  = Some (xs, rest) →
  Matrix_file (Some bytes) (S (length bytes)) σ
  = Some (Ok {| m := fresh (dom σ) |}
             (<[fresh (dom σ) :=
                  OMatrix {| size1 := length (non_blank_lines bytes);
                             size2 := length (tokens line);
                             mdata := xs |}]> σ)).
Proof. intros H1 H2 H3 H4. by eapply Matrix_file_Ok. Qed.

(** X27.  When the file holds fewer readable numbers than [rows * cols],
    the constructor stops in the error handler of GSL with
    [fscanf failed] and builds no matrix. *)
Theorem Matrix_file_too_few_numbers (bytes line more : list ascii)
    (σ : store R) :
  bytes = line ++ "010"%char :: more →
  Forall (λ c, is_newline c = false) line →
  Forall (λ c, c ≠ "255"%char) bytes →
  scan_all (length (non_blank_lines bytes) * length (tokens line)) bytes = None →
  Matrix_file (Some bytes) (S (length bytes)) σ
  = Some (Err (GslError "fscanf failed")).
Proof.
  intros Hbytes Hnl Hff Hscan.
  destruct (NumberOfColumns_spec line more (S (length bytes)) Hnl) as [Hfirst Hcols].
  { rewrite Hbytes, length_app. simpl. lia. }
  rewrite <- Hbytes in Hfirst, Hcols.
  unfold Matrix_file.
  rewrite NumberOfRows_spec by (done || lia).
  rewrite Hcols. f_equal.
  erewrite bind_Ok by reflexivity.
  erewrite (bind_Err (gsl_matrix_fscanf _ _)); [done|].
  unfold gsl_matrix_fscanf.
  erewrite bind_Ok by (apply load_matrix_Ok; apply lookup_insert_eq).
  simpl. by rewrite (raw_fscanf_fails _ 0 bytes _ Hscan).
Qed.

End FileFacts.

(** ** The further statements at concrete inputs *)

Lemma Set_then_Get_witness :
  ∃ σ',
    Set_ M1 0 1 7%Z (one_matrix A22) = Ok tt σ'
    ∧ Get M1 0 1 σ' = Ok 7%Z σ'
    ∧ Height M1 σ' = Ok 2 σ'
    ∧ Width M1 σ' = Ok 2 σ'
    ∧ (∀ i j y, (i, j) ≠ (0, 1) →
         Get M1 i j (one_matrix A22) = Ok y (one_matrix A22) →
         Get M1 i j σ' = Ok y σ')
    ∧ (∀ l, l ≠ m M1 → σ' !! l = one_matrix A22 !! l).
Proof.
  apply (Set_then_Get (one_matrix A22) M1 A22 0 1 7%Z).
  - reflexivity.
  - reflexivity.
  - simpl; lia.
  - simpl; lia.
Defined.

Lemma Matrix_data_copies_witness :
  ∃ r σ',
    Matrix_data (heap := zeros) 1%positive 1 2 (one_matrix A22) = Ok r σ'
    ∧ (m r ∉ dom (one_matrix A22))
    ∧ Height r σ' = Ok 1 σ'
    ∧ Width r σ' = Ok 2 σ'
    ∧ (∀ i j, i < 1 → j < 2 →
         ∃ x, buffer (OMatrix A22) !! (i * 2 + j) = Some x
              ∧ Get r i j σ' = Ok x σ')
    ∧ (∀ l, l ∈ dom (one_matrix A22) → σ' !! l = one_matrix A22 !! l).
Proof.
  apply (Matrix_data_copies (heap := zeros) (one_matrix A22) 1%positive
           (OMatrix A22) 1 2).
  - reflexivity.
  - simpl; lia.
Defined.

Lemma Clone_square_independent_witness :
  ∃ r σ',
    Clone (heap := zeros) M1 (one_matrix A22) = Ok r σ'
    ∧ (m r ∉ dom (one_matrix A22))
    ∧ σ' !! m r = Some (OMatrix A22)
    ∧ σ' !! m M1 = Some (OMatrix A22)
    ∧ ∀ i j x, i < size1 A22 → j < size2 A22 →
        ∃ σ'', Set_ r i j x σ' = Ok tt σ''
               ∧ Get r i j σ'' = Ok x σ''
               ∧ σ'' !! m M1 = Some (OMatrix A22).
Proof.
  apply (Clone_square_independent (heap := zeros) (one_matrix A22) M1 A22).
  - reflexivity.
  - reflexivity.
  - reflexivity.
Defined.

Lemma Clone_then_destroy_witness :
  ∃ r σ', Clone (heap := zeros) M1 (one_matrix A12) = Ok r σ'
          ∧ Matrix_destroy r σ' = Ok tt (one_matrix A12).
Proof.
  apply (Clone_then_destroy (heap := zeros) (one_matrix A12) M1 A12).
  - reflexivity.
  - reflexivity.
Defined.

Lemma Row_copies_row_witness :
  ∃ vec σ',
    Z_Row M1 1 (one_matrix A22) = Ok vec σ'
    ∧ (v vec ∉ dom (one_matrix A22))
    ∧ σ' !! v vec = Some (OVector {| size := size2 A22; vdata := matrix_row A22 1 |})
    ∧ length (matrix_row A22 1) = size2 A22
    ∧ (∀ j, j < size2 A22 →
         matrix_row A22 1 !! j = mdata A22 !! (1 * size2 A22 + j))
    ∧ (∀ l, l ∈ dom (one_matrix A22) → σ' !! l = one_matrix A22 !! l).
Proof.
  apply (Row_copies_row (heap := zeros) (one_matrix A22) M1 A22 1).
  - reflexivity.
  - reflexivity.
  - simpl; lia.
Defined.

Lemma SetRow_overwrites_row_witness :
  ∃ b',
    SetRow M1 1 V2 (matrix_and_vector A22 [7; 8]%Z)
    = Ok tt (<[m M1 := OMatrix b']> (matrix_and_vector A22 [7; 8]%Z))
    ∧ size1 b' = size1 A22 ∧ size2 b' = size2 A22 ∧ shaped b'
    ∧ matrix_row b' 1 = [7; 8]%Z
    ∧ ∀ i, i < size1 A22 → i ≠ 1 → matrix_row b' i = matrix_row A22 i.
Proof.
  apply (SetRow_overwrites_row (arith := Z_arith)
           (matrix_and_vector A22 [7; 8]%Z) M1 V2 A22 [7; 8]%Z 1).
  - reflexivity.
  - reflexivity.
  - reflexivity.
  - reflexivity.
  - simpl; lia.
Defined.

Lemma Column_copies_column_witness :
  ∃ vec σ',
    Column (heap := zeros) M1 1 (one_matrix A22) = Ok vec σ'
    ∧ (v vec ∉ dom (one_matrix A22))
    ∧ σ' !! v vec
      = Some (OVector {| size := size1 A22;
                         vdata := matrix_column (arith := Z_arith) A22 1 |})
    ∧ length (matrix_column (arith := Z_arith) A22 1) = size1 A22
    ∧ (∀ i, i < size1 A22 →
         matrix_column (arith := Z_arith) A22 1 !! i
         = mdata A22 !! (i * size2 A22 + 1))
    ∧ (∀ l, l ∈ dom (one_matrix A22) → σ' !! l = one_matrix A22 !! l).
Proof.
  apply (Column_copies_column (arith := Z_arith) (heap := zeros)
           (one_matrix A22) M1 A22 1).
  - reflexivity.
  - reflexivity.
  - simpl; lia.
Defined.

Lemma SetColumn_overwrites_column_witness :
  ∃ b',
    SetColumn M1 0 V2 (matrix_and_vector A22 [7; 8]%Z)
    = Ok tt (<[m M1 := OMatrix b']> (matrix_and_vector A22 [7; 8]%Z))
    ∧ size1 b' = size1 A22 ∧ size2 b' = size2 A22 ∧ shaped b'
    ∧ matrix_column (arith := Z_arith) b' 0 = [7; 8]%Z
    ∧ ∀ j, j < size2 A22 → j ≠ 0 →
        matrix_column (arith := Z_arith) b' j
        = matrix_column (arith := Z_arith) A22 j.
Proof.
  apply (SetColumn_overwrites_column (arith := Z_arith)
           (matrix_and_vector A22 [7; 8]%Z) M1 V2 A22 [7; 8]%Z 0).
  - reflexivity.
  - reflexivity.
  - reflexivity.
  - reflexivity.
  - simpl; lia.
Defined.

Lemma SetColumn_of_Column_witness :
  ∃ vec σ1,
    Column (heap := zeros) M1 1 (one_matrix A22) = Ok vec σ1
    ∧ SetColumn M1 1 vec σ1 = Ok tt σ1
    ∧ σ1 !! m M1 = Some (OMatrix A22).
Proof.
  apply (SetColumn_of_Column_unchanged (arith := Z_arith) (heap := zeros)
           (one_matrix A22) M1 A22 1).
  - reflexivity.
  - reflexivity.
  - simpl; lia.
Defined.

Lemma Matrix_vec_diagonal_witness :
  ∃ r σ' b',
    Matrix_vec (arith := Z_arith) (heap := zeros) V2 (one_vector [7; 8]%Z)
    = Ok r σ'
    ∧ (m r ∉ dom (one_vector [7; 8]%Z))
    ∧ σ' !! m r = Some (OMatrix b')
    ∧ size1 b' = 2 ∧ size2 b' = 2 ∧ shaped b'
    ∧ (∀ i j, i < 2 → j < 2 →
         mdata b' !! (i * 2 + j)
         = if decide (i = j) then [7; 8]%Z !! i else Some 0%Z)
    ∧ (∀ l, l ∈ dom (one_vector [7; 8]%Z) → σ' !! l = one_vector [7; 8]%Z !! l).
Proof.
  apply (Matrix_vec_diagonal (arith := Z_arith) (heap := zeros)
           (one_vector [7; 8]%Z) V2 [7; 8]%Z).
  reflexivity.
Defined.

Lemma Add_sums_cells_witness :
  ∃ a',
    Add (arith := Z_arith) M1 M2 (two_matrices A22 C22)
    = Ok tt (<[m M1 := OMatrix a']> (two_matrices A22 C22))
    ∧ size1 a' = size1 A22 ∧ size2 a' = size2 A22 ∧ shaped a'
    ∧ ∀ i j, i < size1 A22 → j < size2 A22 →
        ∃ x y, mdata A22 !! (i * size2 A22 + j) = Some x
               ∧ mdata C22 !! (i * size2 A22 + j) = Some y
               ∧ mdata a' !! (i * size2 A22 + j) = Some (x + y)%Z.
Proof.
  apply (Add_sums_cells (arith := Z_arith) (two_matrices A22 C22) M1 M2 A22 C22).
  - reflexivity.
  - reflexivity.
  - discriminate.
  - reflexivity.
  - reflexivity.
  - reflexivity.
  - reflexivity.
Defined.

Lemma Add_to_itself_witness :
  ∃ a',
    Add (arith := Z_arith) M1 M1 (one_matrix A22)
    = Ok tt (<[m M1 := OMatrix a']> (one_matrix A22))
    ∧ size1 a' = size1 A22 ∧ size2 a' = size2 A22 ∧ shaped a'
    ∧ ∀ i j, i < size1 A22 → j < size2 A22 →
        ∃ x, mdata A22 !! (i * size2 A22 + j) = Some x
             ∧ mdata a' !! (i * size2 A22 + j) = Some (x + x)%Z.
Proof.
  apply (Add_to_itself (arith := Z_arith) (one_matrix A22) M1 A22).
  - reflexivity.
  - reflexivity.
Defined.



Lemma Multiply_by_itself_witness :
  ∃ r σ',
    Z_Multiply M1 M1 (one_matrix A22) = Ok r σ'
    ∧ Height r σ' = Ok (size1 A22) σ'
    ∧ Width r σ' = Ok (size1 A22) σ'
    ∧ ∀ i j, i < size1 A22 → j < size1 A22 →
        Get r i j σ'
        = Ok (dot (arith := Z_arith) (matrix_row A22 i) (matrix_row A22 j)) σ'
        ∧ Get r j i σ'
          = Ok (dot (arith := Z_arith) (matrix_row A22 i) (matrix_row A22 j)) σ'.
Proof.
  apply (Multiply_by_itself_symmetric (arith := Z_arith) (heap := zeros)
           Z.add_0_l Z.mul_1_l Z.mul_comm (one_matrix A22) M1 A22).
  - reflexivity.
  - unfold valid; simpl; lia.
Defined.

Lemma Multiply_Vector_long_vector_witness :
  Z_Multiply_Vector M1 V2 (matrix_and_vector A22 [1; 1]%Z) = Err (Xerbla 14).
Proof.
  apply (Multiply_Vector_long_vector_stops (arith := Z_arith) (heap := zeros)
           (matrix_and_vector A22 [1; 1]%Z) M1 V2 A22
           {| size := 2; vdata := [1; 1]%Z |}).
  - reflexivity.
  - reflexivity.
  - simpl; lia.
Defined.

Lemma Multiply_Vector_stops_witness :
  Z_Multiply_Vector M1 V2 (matrix_and_vector A22 [5]%Z) = Err (Xerbla 11).
Proof.
  apply (Multiply_Vector_stops_unless_one_column (arith := Z_arith)
           (heap := zeros) (matrix_and_vector A22 [5]%Z) M1 V2 A22
           {| size := 1; vdata := [5]%Z |}).
  - reflexivity.
  - reflexivity.
  - simpl; lia.
Defined.

Lemma Sphere_standardises_witness :
  ∃ b',
    Sphere (arith := Z_arith) (heap := zeros) (stats := Z_stats) M1
      (one_matrix A22)
    = Ok tt (<[m M1 := OMatrix b']> (one_matrix A22))
    ∧ size1 b' = size1 A22 ∧ size2 b' = size2 A22 ∧ shaped b'
    ∧ ∀ i j, i < size1 A22 → j < size2 A22 →
        mdata b' !! (i * size2 A22 + j)
        = Some (sphered (arith := Z_arith) (stats := Z_stats)
                  (matrix_column (arith := Z_arith) A22 j)
                  (at_ (arith := Z_arith) (mdata A22) (i * size2 A22 + j))).
Proof.
  apply (Sphere_standardises_columns (arith := Z_arith) (heap := zeros)
           (stats := Z_stats) (one_matrix A22) M1 A22).
  - reflexivity.
  - reflexivity.
Defined.

Lemma Invert_keeps_inverse_witness :
  ∃ r t σ' inv,
    Invert (heap := identity_blocks) (kernel := keep) M1 (one_matrix I22)
    = Ok {| m := r |} σ'
    ∧ t ≠ r
    ∧ (t ∉ dom (one_matrix I22))
    ∧ (r ∉ dom (one_matrix I22))
    ∧ σ' !! t = Some (OMatrix inv)
    ∧ σ' !! r = Some (OMatrix inv)
    ∧ size1 inv = size2 I22 ∧ size2 inv = size2 I22
    ∧ dom σ' = {[r]} ∪ ({[t]} ∪ dom (one_matrix I22)).
Proof.
  apply (Invert_keeps_inverse_block (heap := identity_blocks) (kernel := keep)
           (one_matrix I22) M1 I22).
  - reflexivity.
  - reflexivity.
  - reflexivity.
  - vm_compute. reflexivity.
Defined.

Lemma not_255_dec (l : list ascii) :
  forallb (λ c, negb (Ascii.eqb c "255")) l = true →
  Forall (λ c, c ≠ "255"%char) l.
Proof.
  induction l as [|c l IH]; simpl; [by constructor|].
  intros [Hc Hl]%andb_true_iff. constructor; [|by apply IH].
  intros ->. done.
Qed.

Lemma not_newline_dec (l : list ascii) :
  forallb (λ c, negb (is_newline c)) l = true →
  Forall (λ c, is_newline c = false) l.
Proof.
  induction l as [|c l IH]; simpl; [by constructor|].
  intros [Hc Hl]%andb_true_iff. constructor; [|by apply IH].
  by apply negb_true_iff.
Qed.

Lemma NumberOfRows_counts_witness :
  NumberOfRows 13 {| contents := two_rows; pos := 0 |}
  = Some (length (non_blank_lines two_rows), {| contents := two_rows; pos := 0 |}).
Proof.
  apply (NumberOfRows_counts_non_blank_lines two_rows 13).
  - apply not_255_dec. reflexivity.
  - simpl; lia.
Defined.

Lemma NumberOfRows_stops_witness :
  NumberOfRows 6
    {| contents := before_255 ++ "255"%char :: after_255; pos := 0 |}
  = Some (length (non_blank_lines before_255),
          {| contents := before_255 ++ "255"%char :: after_255; pos := 0 |}).
Proof.
  apply (NumberOfRows_stops_at_byte_255 before_255 after_255 6).
  - apply not_255_dec. reflexivity.
  - simpl; lia.
Defined.

Lemma NumberOfColumns_counts_witness :
  first_line (text "1 2 3" ++ "010"%char :: text "4 5") = text "1 2 3"
  ∧ NumberOfColumns 6
      {| contents := text "1 2 3" ++ "010"%char :: text "4 5"; pos := 0 |}
    = Some (length (tokens (text "1 2 3")),
            {| contents := text "1 2 3" ++ "010"%char :: text "4 5"; pos := 0 |}).
Proof.
  apply (NumberOfColumns_counts_tokens (text "1 2 3") (text "4 5") 6).
  - apply not_newline_dec. reflexivity.
  - simpl; lia.
Defined.

Lemma Matrix_file_reads_witness :
  Z_Matrix_file (Some two_rows) (S (length two_rows)) ∅
  = Some (Ok {| m := fresh (dom (∅ : store Z)) |}
             (<[fresh (dom (∅ : store Z)) :=
                  OMatrix {| size1 := length (non_blank_lines two_rows);
                             size2 := length (tokens (text "1 2 3"));
                             mdata := [1; 2; 3; 4; 5; 6]%Z |}]> ∅)).
Proof.
  apply (Matrix_file_reads_numbers_in_order (heap := zeros) (scanner := decimal)
           two_rows (text "1 2 3") (text "4 5 6" ++ newline)
           [1; 2; 3; 4; 5; 6]%Z newline ∅).
  - reflexivity.
  - apply not_newline_dec. reflexivity.
  - apply not_255_dec. reflexivity.
  - reflexivity.
Defined.

Lemma Matrix_file_too_few_witness :
  Z_Matrix_file (Some short_file) (S (length short_file)) ∅
  = Some (Err (GslError "fscanf failed")).
Proof.
  apply (Matrix_file_too_few_numbers (heap := zeros) (scanner := decimal)
           short_file (text "1 2 3") (text "4 5" ++ newline) ∅).
  - reflexivity.
  - apply not_newline_dec. reflexivity.
  - apply not_255_dec. reflexivity.
  - reflexivity.
Defined.


